(** * qc_image_unpacker: the utility layer of [src/utils.c]

    A shallow embedding of the file collector ([utils_readdir],
    [utils_init_files]), the raw I/O helpers ([utils_writeToFd],
    [utils_mapFileToRead]), the fail-fast allocator ([utils_malloc],
    [utils_calloc], [utils_realloc], [utils_crealloc]) and the hex dump
    ([utils_hexDump]), followed by the properties the specification states
    about them.

    The C code talks to the operating system all the time.  The embedding
    keeps the program logic as it is written and makes the operating system
    an explicit [world]: scripted answers for the calls whose result the
    program branches on, and a record of the effects it performs. *)

From Stdlib Require Import ZArith NArith List String Ascii Bool Lia.
From Stdlib Require Import DecimalString HexadecimalString.
From Stdlib Require HexadecimalPos HexadecimalN HexadecimalFacts.
From Stdlib.Strings Require Import Byte.
Import ListNotations.

Local Open Scope string_scope.
Local Open Scope Z_scope.

(* ================================================================== *)
(** * Part I. The embedding                                            *)
(* ================================================================== *)

(** ** Values of the C program *)

(** Pointers are addresses; only the comparison with [NULL] and with
    [MAP_FAILED] matters to the code. *)
Definition ptr := Z.
Definition NULL : ptr := 0.
Definition MAP_FAILED : ptr := -1.
Definition EINTR : Z := 4.
Definition sizeof_ptr : Z := 8.

(** [struct stat], the two fields the code reads, and the mode macros of
    <sys/stat.h>. *)
Record stat_t := mkStat { st_mode : Z; st_size : Z }.

Definition S_IFMT : Z := 61440.  (* 0170000 *)
Definition S_IFDIR : Z := 16384. (* 0040000 *)
Definition S_IFREG : Z := 32768. (* 0100000 *)
Definition S_ISDIR (m : Z) : bool := Z.land m S_IFMT =? S_IFDIR.
Definition S_ISREG (m : Z) : bool := Z.land m S_IFMT =? S_IFREG.

(** ** Logging *)

Inductive log_level := l_FATAL | l_ERROR | l_WARN | l_INFO | l_DEBUG.

(** [LOGMSG], [LOGMSG_P] (which adds the text of [errno]) and [LOGMSG_RAW]
    (no prefix, no newline). *)
Inductive log_kind := Plain | WithErrno | Raw.

Record log_record := mkLog { lr_kind : log_kind; lr_level : log_level; lr_text : string }.

(** ** The world *)

(** What a [write] call is answered with: the device takes up to [k] bytes
    of the request, or the call fails with an [errno]. *)
Inductive write_res := WBytes (k : nat) | WErr (errno : Z).

Inductive heap_op := OpMemset (p : ptr) (c : Z) (n : Z) | OpFree (p : ptr).

Record world := mkWorld {
  heap : list ptr;                   (* answers of the coming malloc/realloc/strdup calls; NULL once exhausted *)
  heap_ops : list heap_op;           (* memset and free calls performed, oldest first *)
  wr_script : list write_res;        (* answers of the coming write calls; a full write once exhausted *)
  wr_done : list (Z * list byte);    (* (fd, bytes) transferred by write, oldest first *)
  fd_open : list Z;                  (* descriptors currently open *)
  mappings : list (ptr * Z);         (* (address, length) of the live mappings *)
  dir_open : Z;                      (* number of directory streams currently open *)
  logs : list log_record             (* log calls, newest first *)
}.

Definition set_heap (h : list ptr) (w : world) : world :=
  mkWorld h (heap_ops w) (wr_script w) (wr_done w) (fd_open w) (mappings w) (dir_open w) (logs w).
Definition set_heap_ops (o : list heap_op) (w : world) : world :=
  mkWorld (heap w) o (wr_script w) (wr_done w) (fd_open w) (mappings w) (dir_open w) (logs w).
Definition set_wr_script (s : list write_res) (w : world) : world :=
  mkWorld (heap w) (heap_ops w) s (wr_done w) (fd_open w) (mappings w) (dir_open w) (logs w).
Definition set_wr_done (d : list (Z * list byte)) (w : world) : world :=
  mkWorld (heap w) (heap_ops w) (wr_script w) d (fd_open w) (mappings w) (dir_open w) (logs w).
Definition set_fd_open (f : list Z) (w : world) : world :=
  mkWorld (heap w) (heap_ops w) (wr_script w) (wr_done w) f (mappings w) (dir_open w) (logs w).
Definition set_mappings (m : list (ptr * Z)) (w : world) : world :=
  mkWorld (heap w) (heap_ops w) (wr_script w) (wr_done w) (fd_open w) m (dir_open w) (logs w).
Definition set_dir_open (n : Z) (w : world) : world :=
  mkWorld (heap w) (heap_ops w) (wr_script w) (wr_done w) (fd_open w) (mappings w) n (logs w).
Definition set_logs (l : list log_record) (w : world) : world :=
  mkWorld (heap w) (heap_ops w) (wr_script w) (wr_done w) (fd_open w) (mappings w) (dir_open w) l.

(** ** Computations that may end the process *)

(** A call either comes back to its caller with a value, or the process
    has been terminated inside it. *)
Inductive outcome (A : Type) : Type :=
| Done (a : A) (w : world)
| Exit (w : world).
Arguments Done {A} a w.
Arguments Exit {A} w.

Definition M (A : Type) : Type := world -> outcome A.

Definition ret {A : Type} (a : A) : M A := fun w => Done a w.

Definition bind {A B : Type} (m : M A) (k : A -> M B) : M B :=
  fun w => match m w with
           | Done a w' => k a w'
           | Exit w' => Exit w'
           end.

Declare Scope prog_scope.
Delimit Scope prog_scope with prog.
Notation "x <- m ;; k" := (bind m (fun x => k))
  (at level 61, m at next level, right associativity) : prog_scope.
Notation "m ;;; k" := (bind m (fun _ => k))
  (at level 61, right associativity) : prog_scope.
Local Open Scope prog_scope.

(** Modelled from the spec: the logging macros of the absent [utils.h] /
    [log.h].  A message is handed to the sink; at level [l_FATAL] the
    process is terminated ("Policy: log and terminate the process
    immediately"; the source says of its two fatal calls "This is expected
    to abort").  Every other level comes back to the caller. *)
Definition log_msg (k : log_kind) (lvl : log_level) (text : string) : M unit :=
  fun w =>
    let w' := set_logs (mkLog k lvl text :: logs w) w in
    match lvl with
    | l_FATAL => Exit w'
    | _ => Done tt w'
    end.

Definition LOGMSG : log_level -> string -> M unit := log_msg Plain.
Definition LOGMSG_P : log_level -> string -> M unit := log_msg WithErrno.
Definition LOGMSG_RAW : log_level -> string -> M unit := log_msg Raw.

(** ** printf conversions used by the source *)

Definition fmt_d (z : Z) : string := DecimalString.NilZero.string_of_int (Z.to_int z).

Definition fmt_x (z : Z) : string :=
  HexadecimalString.NilZero.string_of_uint (N.to_hex_uint (Z.to_N z)).

Fixpoint zeros (n : nat) : string :=
  match n with
  | O => ""
  | S n' => String "0" (zeros n')
  end.

(** [%0<width>x]: lower-case hexadecimal, padded with zeros on the left up
    to [width] characters, never truncated.  The source prints offsets and
    byte values with it, never a negative number. *)
Definition fmt_0x (width : nat) (z : Z) : string :=
  let s := fmt_x z in (zeros (width - String.length s)%nat ++ s)%string.

(** ** The C library's allocator *)

Definition next_alloc : M ptr :=
  fun w => match heap w with
           | [] => Done NULL w
           | p :: h => Done p (set_heap h w)
           end.

Definition malloc (sz : Z) : M ptr := next_alloc.
Definition realloc (p : ptr) (sz : Z) : M ptr := next_alloc.
Definition memset (p : ptr) (c : Z) (n : Z) : M unit :=
  fun w => Done tt (set_heap_ops (heap_ops w ++ [OpMemset p c n])%list w).
Definition free (p : ptr) : M unit :=
  fun w => Done tt (set_heap_ops (heap_ops w ++ [OpFree p])%list w).

(** ** Allocator: [utils_malloc], [utils_calloc], [utils_realloc],
       [utils_crealloc] *)

Definition utils_malloc (sz : Z) : M ptr :=
  p <- malloc sz ;;
  (if p =? NULL
   then LOGMSG l_FATAL ("malloc(size='" ++ fmt_d sz ++ "')")%string
   else ret tt) ;;;
  ret p.

Definition utils_calloc (sz : Z) : M ptr :=
  p <- utils_malloc sz ;;
  memset p 0 sz ;;;
  ret p.

Definition utils_realloc (p : ptr) (sz : Z) : M ptr :=
  r <- realloc p sz ;;
  (if r =? NULL
   then LOGMSG_P l_FATAL ("realloc(0x" ++ fmt_x p ++ ", " ++ fmt_d sz ++ ")")%string ;;;
        free p
   else ret tt) ;;;
  ret r.

(** [size_t] is the unsigned type as wide as a pointer ([sizeof_ptr] bytes):
    its values run from 0 to [SIZE_MAX] and its subtraction wraps around. *)
Definition SIZE_MAX : Z := 2 ^ (8 * sizeof_ptr) - 1.

Definition size_sub (a b : Z) : Z := (a - b) mod (SIZE_MAX + 1).

(** The count [new_sz - old_sz] is a [size_t] subtraction: when the block
    shrinks it wraps to [SIZE_MAX + 1 - (old_sz - new_sz)].  [ret + old_sz]
    is address arithmetic on the returned block; it stays inside the block
    as long as [old_sz <= new_sz]. *)
Definition utils_crealloc (p : ptr) (old_sz new_sz : Z) : M ptr :=
  r <- utils_realloc p new_sz ;;
  memset (r + old_sz) 0 (size_sub new_sz old_sz) ;;;
  ret r.

(** ** FileCollector: the file set *)

(** [infiles_t] comes from the absent [utils.h]; the code uses the fields
    [inputFile] (a string), [files] (an array of strings grown by [realloc]) and
    [fileCnt] (a counter, kept as [nat]: no wrap-around is modelled).

    The array behind [files] is its address together with its cells.  A
    cell is [Some path] when it points to a string, and [None] when it is
    NULL or has never been written. *)
Definition slot := option string.

Record infiles_t := mkInfiles {
  inputFile : option string;
  files : ptr * list slot;
  fileCnt : nat
}.

Definition set_files (f : ptr * list slot) (pFiles : infiles_t) : infiles_t :=
  mkInfiles (inputFile pFiles) f (fileCnt pFiles).
Definition set_fileCnt (n : nat) (pFiles : infiles_t) : infiles_t :=
  mkInfiles (inputFile pFiles) (files pFiles) n.

(** The cells of a block of [n] pointers obtained from [cells] by
    [realloc]: the common prefix is kept, new cells are unwritten. *)
Definition resize (n : nat) (cells : list slot) : list slot :=
  firstn n (cells ++ repeat None n)%list.

(** [a[i] = v]; the code only writes inside the block it has just sized. *)
Fixpoint store {A : Type} (i : nat) (v : A) (cells : list A) : list A :=
  match cells, i with
  | [], _ => []
  | _ :: tl, O => v :: tl
  | c :: tl, S i' => c :: store i' v tl
  end.

(** [files = realloc(files, n * sizeof cell)] on the array of the file set: on
    failure the field becomes NULL and the old block is no longer
    reachable from it. *)
Definition realloc_files (f : ptr * list slot) (n : nat) : M (ptr * list slot) :=
  p <- realloc (fst f) (sizeof_ptr * Z.of_nat n) ;;
  ret (if p =? NULL then (NULL, []) else (p, resize n (snd f))).

Definition strdup (s : string) : M slot :=
  p <- next_alloc ;;
  ret (if p =? NULL then None else Some s).

(** ** FileCollector: the file system as the walk sees it *)

(** A directory is what [opendir] and the successive [readdir] calls answer
    for it, and, for every entry, what [stat] on the joined path answers
    and what the entry is as a directory.  [DNull e rest] is a [readdir]
    that returns NULL with [errno = e]; [DEnd] is the end of the stream
    (NULL, [errno] still 0). *)
Inductive dir : Type :=
| NoDir
| Dir (s : dirstream)
with dirstream : Type :=
| DEnd
| DNull (errno : Z) (rest : dirstream)
| DEntry (d_name : string) (st : option stat_t) (sub : dir) (rest : dirstream).

Scheme dir_mut := Induction for dir Sort Prop
  with dirstream_mut := Induction for dirstream Sort Prop.
Combined Scheme dir_dirstream_ind from dir_mut, dirstream_mut.

Definition opendir_ok : M unit := fun w => Done tt (set_dir_open (dir_open w + 1) w).
Definition closedir : M unit := fun w => Done tt (set_dir_open (dir_open w - 1) w).

Definition PATH_MAX : nat := 4096.

(** [snprintf(path, sizeof(path), "%s/%s", basePath, d_name)] with
    [char path[PATH_MAX + 2]]: at most [PATH_MAX + 1] characters are kept. *)
Definition join_path (basePath d_name : string) : string :=
  substring 0 (PATH_MAX + 1) (basePath ++ "/" ++ d_name)%string.

(** ** FileCollector: [utils_readdir] *)

Definition is_dot (d_name : string) : bool :=
  ((d_name =? ".") || (d_name =? ".."))%string.

(** The loop body from the [S_ISREG] test to its end (the last four [if]s
    and the append).  [continue] is the next round of the loop, entered by
    each [continue] statement and by falling off the end of the body. *)
Definition file_step (path : string) (st : stat_t)
    (continue : infiles_t -> M (bool * infiles_t)) (pFiles : infiles_t)
  : M (bool * infiles_t) :=
  if negb (S_ISREG (st_mode st)) then
    LOGMSG l_DEBUG ("'" ++ path ++ "' is not a regular file, skipping")%string ;;;
    continue pFiles
  else if st_size st =? 0 then
    LOGMSG l_DEBUG ("'" ++ path ++ "' is empty")%string ;;;
    continue pFiles
  else
    f <- realloc_files (files pFiles) (fileCnt pFiles + 1) ;;
    let pFiles := set_files f pFiles in
    if fst f =? NULL then
      LOGMSG_P l_ERROR "Couldn't allocate memory" ;;;
      closedir ;;;
      ret (false, pFiles)
    else
      c <- strdup path ;;
      let pFiles :=
        set_files (fst (files pFiles), store (fileCnt pFiles) c (snd (files pFiles))) pFiles in
      match c with
      | None =>
          LOGMSG_P l_ERROR "Couldn't allocate memory" ;;;
          closedir ;;;
          ret (false, pFiles)
      | Some _ =>
          let pFiles := set_fileCnt (fileCnt pFiles + 1) pFiles in
          LOGMSG l_DEBUG ("Added '" ++ path ++ "' to the list of input files")%string ;;;
          continue pFiles
      end.

Fixpoint utils_readdir (d : dir) (basePath : string) (pFiles : infiles_t) {struct d}
  : M (bool * infiles_t) :=
  match d with
  | NoDir =>
      LOGMSG_P l_ERROR ("Couldn't open dir '" ++ basePath ++ "'")%string ;;;
      ret (false, pFiles)
  | Dir s =>
      opendir_ok ;;;
      readdir_loop s basePath pFiles
  end
with readdir_loop (s : dirstream) (basePath : string) (pFiles : infiles_t) {struct s}
  : M (bool * infiles_t) :=
  match s with
  | DEnd =>
      closedir ;;;
      ret (true, pFiles)
  | DNull errno rest =>
      if errno =? EINTR then readdir_loop rest basePath pFiles
      else if negb (errno =? 0) then
        LOGMSG_P l_ERROR ("readdir('" ++ basePath ++ "')")%string ;;;
        ret (false, pFiles)
      else
        closedir ;;;
        ret (true, pFiles)
  | DEntry d_name st sub rest =>
      if is_dot d_name then readdir_loop rest basePath pFiles
      else
        let path := join_path basePath d_name in
        match st with
        | None =>
            LOGMSG l_WARN ("Couldn't stat() the '" ++ path ++ "' file")%string ;;;
            readdir_loop rest basePath pFiles
        | Some st =>
            if S_ISDIR (st_mode st) then
              r <- utils_readdir sub path pFiles ;;
              if negb (fst r) then
                LOGMSG l_ERROR ("Failed to process '" ++ path ++ "' directory")%string ;;;
                readdir_loop rest basePath (snd r)
              else file_step path st (readdir_loop rest basePath) (snd r)
            else file_step path st (readdir_loop rest basePath) pFiles
        end
  end.

(** ** FileCollector: [utils_init_files] *)

(** What the operating system answers for a path: the result of [stat]
    ([None] when it returns -1) and the directory found there. *)
Definition filesystem := string -> option stat_t * dir.

Definition fmt_u (n : nat) : string := DecimalString.NilZero.string_of_uint (Nat.to_uint n).

Definition utils_init_files (fs : filesystem) (pFiles : infiles_t) : M (bool * infiles_t) :=
  p <- malloc sizeof_ptr ;;
  let pFiles := set_files (p, if p =? NULL then [] else [None]) pFiles in
  if p =? NULL then
    LOGMSG_P l_ERROR "Couldn't allocate memory" ;;;
    ret (false, pFiles)
  else
    match inputFile pFiles with
    | None =>
        LOGMSG l_ERROR "No input file/dir specified" ;;;
        ret (false, pFiles)
    | Some input =>
        match fst (fs input) with
        | None =>
            LOGMSG_P l_ERROR ("Couldn't stat the input file/dir '" ++ input ++ "'")%string ;;;
            ret (false, pFiles)
        | Some st =>
            if S_ISDIR (st_mode st) then
              r <- utils_readdir (snd (fs input)) input pFiles ;;
              let pFiles := snd r in
              if negb (fst r) then
                LOGMSG l_ERROR ("Failed to recursively process '" ++ input ++ "' directory")%string ;;;
                ret (false, pFiles)
              else if (fileCnt pFiles =? 0)%nat then
                LOGMSG l_ERROR ("Directory '" ++ input ++ "' doesn't contain any regular files")%string ;;;
                ret (false, pFiles)
              else
                LOGMSG l_INFO (fmt_u (fileCnt pFiles) ++ " input files have been added to the list")%string ;;;
                ret (true, pFiles)
            else if negb (S_ISREG (st_mode st)) then
              LOGMSG l_ERROR ("'" ++ input ++ "' is not a regular file, nor a directory")%string ;;;
              ret (false, pFiles)
            else
              let pFiles := set_files (fst (files pFiles), store 0 (Some input) (snd (files pFiles))) pFiles in
              let pFiles := set_fileCnt 1 pFiles in
              ret (true, pFiles)
        end
    end.

(** ** RawIO: [utils_writeToFd] *)

(** [write(fd, &buf[written], count)]: the value returned and [errno]. *)
Definition write_answer (r : write_res) (count : Z) : Z * Z :=
  match r with
  | WBytes k => (Z.min (Z.of_nat k) count, 0)
  | WErr e => (-1, e)
  end.

(** The [sz] bytes of [buf] that start at index [written]. *)
Definition chunk (buf : list byte) (written sz : Z) : list byte :=
  firstn (Z.to_nat sz) (skipn (Z.to_nat written) buf).

Definition transfer (fd : Z) (bytes : list byte) (w : world) : world :=
  set_wr_done (wr_done w ++ [(fd, bytes)])%list w.

(** The [while (written < fileSz)] loop; every iteration takes the next
    answer of the script.  [off_t] arithmetic stays between 0 and [fileSz],
    so it is plain integer arithmetic.  Once the script is exhausted the
    device takes the whole request, which ends the loop. *)
Fixpoint writeToFd_loop (script : list write_res) (fd : Z) (buf : list byte)
    (fileSz written : Z) (w : world) {struct script} : outcome bool :=
  if written <? fileSz then
    match script with
    | [] => Done true (transfer fd (chunk buf written (fileSz - written)) w)
    | r :: script' =>
        let (sz, errno) := write_answer r (fileSz - written) in
        let w := set_wr_script script' w in
        if (sz <? 0) && (errno =? EINTR) then
          writeToFd_loop script' fd buf fileSz written w
        else if sz <? 0 then Done false w
        else writeToFd_loop script' fd buf fileSz (written + sz)
               (transfer fd (chunk buf written sz) w)
    end
  else Done true w.

Definition utils_writeToFd (fd : Z) (buf : list byte) (fileSz : Z) : M bool :=
  fun w => writeToFd_loop (wr_script w) fd buf fileSz 0 w.

(** All the bytes a run has handed to descriptor [fd]. *)
Fixpoint bytes_to (fd : Z) (done : list (Z * list byte)) : list byte :=
  match done with
  | [] => []
  | (fd', bytes) :: tl => ((if fd' =? fd then bytes else []) ++ bytes_to fd tl)%list
  end.

(** ** RawIO: [utils_mapFileToRead] *)

(** The three system calls whose result the function branches on:
    [open] gives a descriptor or -1, [fstat] a [struct stat] or nothing
    (-1), [mmap] of a length and a descriptor an address or [MAP_FAILED]. *)
Record kernel := mkKernel {
  sys_open : string -> Z;
  sys_fstat : Z -> option stat_t;
  sys_mmap : Z -> Z -> ptr
}.

Definition open (k : kernel) (fileName : string) : M Z :=
  fun w => let fd := sys_open k fileName in
           Done fd (if fd =? -1 then w else set_fd_open (fd :: fd_open w) w).

Fixpoint remove_fd (fd : Z) (l : list Z) : list Z :=
  match l with
  | [] => []
  | x :: tl => if x =? fd then tl else x :: remove_fd fd tl
  end.

Definition close (fd : Z) : M unit :=
  fun w => Done tt (set_fd_open (remove_fd fd (fd_open w)) w).

Definition mmap (k : kernel) (len fd : Z) : M ptr :=
  fun w => let p := sys_mmap k len fd in
           Done p (if p =? MAP_FAILED then w else set_mappings ((p, len) :: mappings w) w).

(** The out-parameters [*fileSz] and [*fd] come in with the caller's
    values and go out as the second and third component of the result. *)
Definition utils_mapFileToRead (k : kernel) (fileName : string) (fileSz fd : Z)
  : M (ptr * Z * Z) :=
  fd <- open k fileName ;;
  if fd =? -1 then
    LOGMSG_P l_WARN ("Couldn't open() '" ++ fileName ++ "' file in R/O mode")%string ;;;
    ret (NULL, fileSz, fd)
  else
    match sys_fstat k fd with
    | None =>
        LOGMSG_P l_WARN ("Couldn't stat() the '" ++ fileName ++ "' file")%string ;;;
        close fd ;;;
        ret (NULL, fileSz, fd)
    | Some st =>
        buf <- mmap k (st_size st) fd ;;
        if buf =? MAP_FAILED then
          LOGMSG_P l_WARN ("Couldn't mmap() the '" ++ fileName ++ "' file")%string ;;;
          close fd ;;;
          ret (NULL, fileSz, fd)
        else
          ret (buf, st_size st, fd)
    end.

(** ** Diagnostics: [utils_hexDump] *)

Definition nl : string := String (ascii_of_nat 10) "".

Definition byte_val (b : byte) : Z := Z.of_N (Byte.to_N b).

(** [pc[i]] *)
Definition peek (pc : list byte) (i : Z) : byte := nth (Z.to_nat i) pc x00.

(** [%s] of a [char] array: the characters before the first NUL. *)
Fixpoint cstring (l : list byte) : string :=
  match l with
  | [] => ""
  | b :: tl => if Byte.eqb b x00 then "" else String (ascii_of_byte b) (cstring tl)
  end.

(** The body of [for (i = 0; i < len; i++)].  [i] is never negative, so
    C's [%] is [Z.rem]. *)
Definition hexDump_body (pc : list byte) (i : Z) (buff : list byte) : M (list byte) :=
  (if Z.rem i 16 =? 0 then
     (if negb (i =? 0) then LOGMSG_RAW l_DEBUG ("  " ++ cstring buff ++ nl)%string else ret tt) ;;;
     LOGMSG_RAW l_DEBUG ("  " ++ fmt_0x 4 i ++ " ")%string
   else ret tt) ;;;
  LOGMSG_RAW l_DEBUG (" " ++ fmt_0x 2 (byte_val (peek pc i)))%string ;;;
  let buff :=
    if (byte_val (peek pc i) <? 32) || (byte_val (peek pc i) >? 126)
    then store (Z.to_nat (Z.rem i 16)) "."%byte buff
    else store (Z.to_nat (Z.rem i 16)) (peek pc i) buff in
  ret (store (Z.to_nat (Z.rem i 16 + 1)) x00 buff).

Fixpoint hexDump_for (n : nat) (pc : list byte) (i : Z) (buff : list byte)
  : M (Z * list byte) :=
  match n with
  | O => ret (i, buff)
  | S n' =>
      buff <- hexDump_body pc i buff ;;
      hexDump_for n' pc (i + 1) buff
  end.

(** [while ((i % 16) != 0) { ...; i++; }]: at most 15 rounds. *)
Fixpoint hexDump_pad (rounds : nat) (i : Z) : M Z :=
  match rounds with
  | O => ret i
  | S rounds' =>
      if negb (Z.rem i 16 =? 0) then
        LOGMSG_RAW l_DEBUG "   " ;;;
        hexDump_pad rounds' (i + 1)
      else ret i
  end.

(** [stack] is what the 17 bytes of the local array [buff] hold on entry;
    [desc] is [None] for a NULL description. *)
Definition utils_hexDump (stack : list byte) (desc : option string) (addr : list byte)
    (len : Z) : M unit :=
  (match desc with
   | Some d => LOGMSG_RAW l_DEBUG (d ++ ":" ++ nl)%string
   | None => ret tt
   end) ;;;
  if len =? 0 then LOGMSG_RAW l_DEBUG ("  ZERO LENGTH" ++ nl)%string
  else if len <? 0 then LOGMSG_RAW l_DEBUG ("  NEGATIVE LENGTH: " ++ fmt_d len ++ nl)%string
  else
    r <- hexDump_for (Z.to_nat len) addr 0 stack ;;
    hexDump_pad 16 (fst r) ;;;
    LOGMSG_RAW l_DEBUG ("  " ++ cstring (snd r) ++ nl)%string.

(** The text a list of log records (newest first) puts on the sink. *)
Fixpoint log_text (l : list log_record) : string :=
  match l with
  | [] => ""
  | r :: older => (log_text older ++ lr_text r)%string
  end.

(** ** Vocabulary of the properties *)

(** The three ways [utils_mapFileToRead] can fail, read off the kernel. *)
Definition open_fails (k : kernel) (fileName : string) : bool :=
  sys_open k fileName =? -1.

Definition stat_fails (k : kernel) (fileName : string) : bool :=
  match sys_fstat k (sys_open k fileName) with
  | None => true
  | Some _ => false
  end.

Definition mapping_fails (k : kernel) (fileName : string) : bool :=
  match sys_fstat k (sys_open k fileName) with
  | None => false
  | Some st => sys_mmap k (st_size st) (sys_open k fileName) =? MAP_FAILED
  end.

(** A [write] answer that fails for another reason than an interrupt, and
    one that fails with [EINTR]. *)
Definition hard_error (r : write_res) : bool :=
  match r with
  | WErr e => negb (e =? EINTR)
  | WBytes _ => false
  end.

Definition interrupted (r : write_res) : bool :=
  match r with
  | WErr e => e =? EINTR
  | WBytes _ => false
  end.

(** The bytes a run of answers is ready to take. *)
Fixpoint accepted (script : list write_res) : Z :=
  match script with
  | [] => 0
  | WBytes k :: tl => Z.of_nat k + accepted tl
  | WErr _ :: tl => accepted tl
  end.

(** A write of [n] bytes against [script] meets a hard error: the script
    has one, nothing before it is a hard error, and what comes before it
    takes fewer than [n] bytes. *)
Definition reaches_hard_error (script : list write_res) (n : Z) : Prop :=
  exists pre e post,
    script = (pre ++ WErr e :: post)%list /\
    e <> EINTR /\
    forallb (fun r => negb (hard_error r)) pre = true /\
    accepted pre < n.

(** The dump as the specification words it: rows of 16 bytes; a row is
    its offset in hexadecimal padded to four digits, the bytes in
    hexadecimal, blanks up to 16 columns, and the bytes again as text with
    [.] for every byte below 0x20 or above 0x7e. *)
Definition gutter_byte (b : byte) : byte :=
  if (byte_val b <? 32) || (byte_val b >? 126) then "."%byte else b.

Fixpoint bytes_string (l : list byte) : string :=
  match l with
  | [] => ""
  | b :: tl => String (ascii_of_byte b) (bytes_string tl)
  end.

Definition gutter (row : list byte) : string := bytes_string (map gutter_byte row).

Fixpoint hexes (row : list byte) : string :=
  match row with
  | [] => ""
  | b :: tl => (" " ++ fmt_0x 2 (byte_val b) ++ hexes tl)%string
  end.

Fixpoint blanks (n : nat) : string :=
  match n with
  | O => ""
  | S n' => ("   " ++ blanks n')%string
  end.

Definition row_open (off : Z) (row : list byte) : string :=
  ("  " ++ fmt_0x 4 off ++ " " ++ hexes row)%string.

Definition row_close (row : list byte) : string :=
  (blanks (16 - List.length row) ++ "  " ++ gutter row ++ nl)%string.

Definition row_text (off : Z) (row : list byte) : string :=
  (row_open off row ++ row_close row)%string.

(** At most [n] rows of [bs], the first at offset [off]. *)
Fixpoint dump_rows (n : nat) (off : Z) (bs : list byte) : string :=
  match n with
  | O => ""
  | S n' =>
      match bs with
      | [] => ""
      | _ => (row_text off (firstn 16 bs) ++ dump_rows n' (off + 16) (skipn 16 bs))%string
      end
  end.

Definition header (desc : option string) : string :=
  match desc with
  | Some d => (d ++ ":" ++ nl)%string
  | None => ""
  end.

(** The dump while its last row is still open, and that last row. *)
Fixpoint open_rows (n : nat) (off : Z) (bs : list byte) : string :=
  match n with
  | O => ""
  | S n' =>
      match skipn 16 bs with
      | [] => row_open off (firstn 16 bs)
      | _ => (row_text off (firstn 16 bs) ++ open_rows n' (off + 16) (skipn 16 bs))%string
      end
  end.

Fixpoint last_row (n : nat) (bs : list byte) : list byte :=
  match n with
  | O => []
  | S n' =>
      match skipn 16 bs with
      | [] => firstn 16 bs
      | _ => last_row n' (skipn 16 bs)
      end
  end.

(** Between two worlds, the text [s] has been put on the log sink. *)
Definition emitted (w w' : world) (s : string) : Prop :=
  log_text (logs w') = (log_text (logs w) ++ s)%string.

(** The record [LOGMSG_RAW(l_DEBUG, "  %04x ", k)] leaves on the log. *)
Definition row_label (k : Z) : log_record :=
  mkLog Raw l_DEBUG ("  " ++ fmt_0x 4 k ++ " ").

(** [P] holds of the [n] integers from [z] on. *)
Fixpoint all_from (n : nat) (z : Z) (P : Z -> bool) : bool :=
  match n with
  | O => true
  | S n' => P z && all_from n' (z + 1) P
  end.

(** A regular file of size greater than 0. *)
Definition is_file (st : stat_t) : bool :=
  S_ISREG (st_mode st) && (0 <? st_size st).

(** Whether a directory holds a regular file of size greater than 0
    anywhere below it.  The entries [.] and [..] are the directory itself
    and its parent, not part of what lies below. *)
Fixpoint dir_has_file (d : dir) : bool :=
  match d with
  | NoDir => false
  | Dir s => stream_has_file s
  end
with stream_has_file (s : dirstream) : bool :=
  match s with
  | DEnd => false
  | DNull _ rest => stream_has_file rest
  | DEntry d_name st sub rest =>
      (negb (is_dot d_name) &&
       match st with
       | None => false
       | Some st => is_file st || (S_ISDIR (st_mode st) && dir_has_file sub)
       end)
      || stream_has_file rest
  end.

(** The joined paths of the regular files of size greater than 0 below a
    directory opened as [basePath]. *)
Fixpoint dir_files (d : dir) (basePath : string) : list string :=
  match d with
  | NoDir => []
  | Dir s => stream_files s basePath
  end
with stream_files (s : dirstream) (basePath : string) : list string :=
  match s with
  | DEnd => []
  | DNull _ rest => stream_files rest basePath
  | DEntry d_name st sub rest =>
      ((if is_dot d_name then []
        else match st with
             | None => []
             | Some st =>
                 (if S_ISDIR (st_mode st) then dir_files sub (join_path basePath d_name)
                  else []) ++
                 (if is_file st then [join_path basePath d_name] else [])
             end) ++ stream_files rest basePath)%list
  end.

(** Every string cell of [after] was in [before] or is one of [paths]. *)
Definition cells_from (before after : infiles_t) (paths : list string) : Prop :=
  forall p, In (Some p) (snd (files after)) ->
            In (Some p) (snd (files before)) \/ In p paths.

(** [stat] never reports a negative size. *)
Fixpoint dir_sizes_ok (d : dir) : bool :=
  match d with
  | NoDir => true
  | Dir s => stream_sizes_ok s
  end
with stream_sizes_ok (s : dirstream) : bool :=
  match s with
  | DEnd => true
  | DNull _ rest => stream_sizes_ok rest
  | DEntry _ st sub rest =>
      match st with
      | None => true
      | Some st => 0 <=? st_size st
      end && dir_sizes_ok sub && stream_sizes_ok rest
  end.

Definition log_to (r : log_record) (w : world) : world := set_logs (r :: logs w) w.

(** ** Concrete scenarios *)

Definition mode_reg : Z := 33188. (* 0100644 *)
Definition mode_dir : Z := 16877. (* 0040755 *)
Definition mode_fifo : Z := 4516. (* 0010644 *)

Definition quiet (h : list ptr) : world := mkWorld h [] [] [] [] [] 0 [].

Definition empty_set (input : string) : infiles_t := mkInfiles (Some input) (NULL, []) 0.

(** A directory with one regular file of five bytes. *)
Definition one_file_dir : dir :=
  Dir (DEntry "boot.img" (Some (mkStat mode_reg 5)) NoDir DEnd).


(** A tree with an empty file, a fifo and a subdirectory holding an empty
    file only. *)
Definition barren_dir : dir :=
  Dir (DEntry "." (Some (mkStat mode_dir 4096)) NoDir
    (DEntry "empty" (Some (mkStat mode_reg 0)) NoDir
      (DEntry "pipe" (Some (mkStat mode_fifo 0)) NoDir
        (DEntry "sub" (Some (mkStat mode_dir 4096))
           (Dir (DEntry "empty2" (Some (mkStat mode_reg 0)) NoDir DEnd))
           DEnd)))).

(** A directory with a regular file, then a subdirectory with a regular
    file, then another regular file. *)
Definition three_file_dir : dir :=
  Dir (DEntry "a.img" (Some (mkStat mode_reg 5)) NoDir
    (DEntry "sub" (Some (mkStat mode_dir 4096))
       (Dir (DEntry "b.img" (Some (mkStat mode_reg 7)) NoDir DEnd))
       (DEntry "c.img" (Some (mkStat mode_reg 9)) NoDir DEnd))).

(** A file system with the empty regular file [/img/empty.img] and the
    directories [/img/barren], [/img/one] and [/img/three]. *)
Definition demo_fs : filesystem :=
  fun path =>
    if (path =? "/img/empty.img")%string then (Some (mkStat mode_reg 0), NoDir)
    else if (path =? "/img/barren")%string then (Some (mkStat mode_dir 4096), barren_dir)
    else if (path =? "/img/one")%string then (Some (mkStat mode_dir 4096), one_file_dir)
    else if (path =? "/img/three")%string then (Some (mkStat mode_dir 4096), three_file_dir)
    else (None, NoDir).

(** A device that takes one byte, is interrupted once, then takes the rest. *)
Definition slow_device : world :=
  mkWorld [] [] [WBytes 1; WErr EINTR; WBytes 10] [] [] [] 0 [].

(** Twenty bytes: sixteen and four, with bytes below [0x20] and above
    [0x7e] among them. *)
Definition twenty_bytes : list byte :=
  [x00; x1f; x20; x41; x42; x43; x44; x45; x46; x47; x48; x49; x4a; x4b; x4c; x4d;
   x7e; x7f; xff; x30].

(** A buffer of 65537 zero bytes: its last row starts at offset [0x10000]. *)
Definition big_buffer : list byte := repeat x00 (Z.to_nat 65537).

Definition stack_garbage : list byte := repeat xff 17.

Definition demo_kernel : kernel :=
  mkKernel (fun _ => 3) (fun _ => Some (mkStat mode_reg 10)) (fun _ _ => 4096).

(** ** Paths: [utils_fileBasename] and [utils_isValidDir] *)

(** [strrchr(s, c)] for a character [c] other than NUL: the part of [s]
    that starts at the last [c], if there is one. *)
Fixpoint strrchr (s : string) (c : ascii) : option string :=
  match s with
  | EmptyString => None
  | String x tl =>
      match strrchr tl c with
      | Some r => Some r
      | None => if Ascii.eqb x c then Some s else None
      end
  end.

(** [s + 1] for a string that is not empty. *)
Definition str_tail (s : string) : string :=
  match s with
  | EmptyString => EmptyString
  | String _ tl => tl
  end.

Definition utils_fileBasename (path : string) : M slot :=
  match strrchr path "/" with
  | None => strdup path
  | Some s => strdup (str_tail s)
  end.

(** The message ends with [strerror(errno)]; as for [LOGMSG_P], the text
    of [errno] is left to the sink. *)
Definition utils_isValidDir (fs : filesystem) (path : string) : M bool :=
  match fst (fs path) with
  | None =>
      log_msg WithErrno l_ERROR "stat() failed: " ;;;
      ret false
  | Some buf => ret (S_ISDIR (st_mode buf))
  end.

(** ** Vocabulary of the further properties *)

Fixpoint has_char (c : ascii) (s : string) : bool :=
  match s with
  | EmptyString => false
  | String x tl => Ascii.eqb x c || has_char c tl
  end.

(** The entries the walk appends: regular, and [st_size] not 0. *)
Definition appended (st : stat_t) : bool :=
  S_ISREG (st_mode st) && negb (st_size st =? 0).

(** The paths the walk appends when memory does not run out, in the order
    in which it appends them; and the flag it returns. *)
Fixpoint walk_paths (d : dir) (basePath : string) : list string :=
  match d with
  | NoDir => []
  | Dir s => loop_paths s basePath
  end
with loop_paths (s : dirstream) (basePath : string) : list string :=
  match s with
  | DEnd => []
  | DNull errno rest => if errno =? EINTR then loop_paths rest basePath else []
  | DEntry d_name st sub rest =>
      if is_dot d_name then loop_paths rest basePath
      else match st with
           | None => loop_paths rest basePath
           | Some st =>
               ((if S_ISDIR (st_mode st) then walk_paths sub (join_path basePath d_name)
                 else []) ++
                (if appended st then [join_path basePath d_name] else []) ++
                loop_paths rest basePath)%list
           end
  end.

Fixpoint loop_ok (s : dirstream) : bool :=
  match s with
  | DEnd => true
  | DNull errno rest => if errno =? EINTR then loop_ok rest else (errno =? 0)
  | DEntry _ _ _ rest => loop_ok rest
  end.

Definition walk_ok (d : dir) : bool :=
  match d with
  | NoDir => false
  | Dir s => loop_ok s
  end.

(** The allocator has an answer other than NULL for each of the next [n]
    calls. *)
Definition memory_for (n : nat) (w : world) : Prop :=
  (n <= List.length (heap w))%nat /\ Forall (fun p => p <> NULL) (heap w).

(** No [readdir] of the tree fails with an error (an interrupt is none). *)
Fixpoint dir_reads_ok (d : dir) : bool :=
  match d with
  | NoDir => true
  | Dir s => stream_reads_ok s
  end
with stream_reads_ok (s : dirstream) : bool :=
  match s with
  | DEnd => true
  | DNull errno rest => ((errno =? EINTR) || (errno =? 0)) && stream_reads_ok rest
  | DEntry _ _ sub rest => dir_reads_ok sub && stream_reads_ok rest
  end.

(** The first [fileCnt] cells: the entries of the file set. *)
Definition entries (pFiles : infiles_t) : list slot :=
  firstn (fileCnt pFiles) (snd (files pFiles)).

(** The directory streams a walk with memory at hand leaves open: one for
    every [readdir] error it runs into. *)
Fixpoint walk_left_open (d : dir) : Z :=
  match d with
  | NoDir => 0
  | Dir s => loop_left_open s
  end
with loop_left_open (s : dirstream) : Z :=
  match s with
  | DEnd => 0
  | DNull errno rest =>
      if errno =? EINTR then loop_left_open rest
      else if errno =? 0 then 0 else 1
  | DEntry d_name st sub rest =>
      if is_dot d_name then loop_left_open rest
      else match st with
           | None => loop_left_open rest
           | Some st =>
               (if S_ISDIR (st_mode st) then walk_left_open sub else 0) + loop_left_open rest
           end
  end.

(** What a walk with memory at hand leaves behind: the flag, the count,
    the entries, the allocator answers it has used and the change in the
    number of open directory streams. *)
Definition collected (pf : infiles_t) (w : world) (ok : bool) (paths : list string)
    (delta : Z) (r : bool * infiles_t) (w' : world) : Prop :=
  fst r = ok /\
  inputFile (snd r) = inputFile pf /\
  fileCnt (snd r) = (fileCnt pf + List.length paths)%nat /\
  (fileCnt (snd r) <= List.length (snd (files (snd r))))%nat /\
  entries (snd r) = (entries pf ++ map Some paths)%list /\
  heap w' = skipn (2 * List.length paths) (heap w) /\
  dir_open w' = dir_open w + delta.

(** The root is missing, cannot be stat'd, or is neither a directory nor
    a regular file. *)
Definition bad_root (fs : filesystem) (pFiles : infiles_t) : bool :=
  match inputFile pFiles with
  | None => true
  | Some input =>
      match fst (fs input) with
      | None => true
      | Some st => negb (S_ISDIR (st_mode st)) && negb (S_ISREG (st_mode st))
      end
  end.

(** ** Further scenarios *)

Definition ample : world := quiet [4096; 4104; 4112; 4120; 4128; 4136; 4144].

(** A directory whose stream fails after its first entry. *)
Definition faulty_dir : dir :=
  Dir (DEntry "a.img" (Some (mkStat mode_reg 5)) NoDir (DNull 5 DEnd)).

(* ================================================================== *)
(** * Part II. Properties                                              *)
(* ================================================================== *)

Ltac run :=
  unfold bind, ret, LOGMSG, LOGMSG_P, LOGMSG_RAW, log_msg, closedir, opendir_ok,
    malloc, realloc, memset, free, next_alloc in *; simpl in *.

(** ** Allocator *)

(** C9. Under the policy that a fatal log ends the process,
    [utils_malloc], [utils_calloc] and [utils_realloc] never hand NULL to
    their caller: each either returns the non-NULL pointer the C allocator
    produced, or the process has ended because the allocator produced NULL. *)
Theorem allocator_never_returns_null (sz : Z) (p : ptr) (w : world) :
  match utils_malloc sz w with
  | Done r _ => r <> NULL /\ r = hd NULL (heap w)
  | Exit _ => hd NULL (heap w) = NULL
  end /\
  match utils_calloc sz w with
  | Done r _ => r <> NULL /\ r = hd NULL (heap w)
  | Exit _ => hd NULL (heap w) = NULL
  end /\
  match utils_realloc p sz w with
  | Done r _ => r <> NULL /\ r = hd NULL (heap w)
  | Exit _ => hd NULL (heap w) = NULL
  end.
Proof.
  unfold utils_calloc, utils_malloc, utils_realloc. run.
  destruct (heap w) as [|q h]; simpl.
  - repeat split.
  - destruct (Z.eqb_spec q NULL) as [E|E]; simpl; auto.
Qed.

(** ** RawIO *)

(** C10. With a length that is zero or negative, [utils_writeToFd] returns
    success at once: no [write] is issued and the world is left as it was. *)
Theorem writeToFd_nothing_to_write (fd : Z) (buf : list byte) (fileSz : Z) (w : world) :
  fileSz <= 0 -> utils_writeToFd fd buf fileSz w = Done true w.
Proof.
  intros H. unfold utils_writeToFd.
  destruct (wr_script w); simpl;
    destruct (Z.ltb_spec 0 fileSz); try lia; reflexivity.
Qed.

Lemma writeToFd_nothing_to_write_witness :
  utils_writeToFd 1 [x01; x02] (-3)
    (mkWorld [] [] [WBytes 1; WErr 5] [] [] [] 0 []) =
  Done true (mkWorld [] [] [WBytes 1; WErr 5] [] [] [] 0 []).
Proof.
  apply (writeToFd_nothing_to_write 1 [x01; x02] (-3)). lia.
Defined.

Lemma remove_fd_head (fd : Z) (l : list Z) : remove_fd fd (fd :: l) = l.
Proof. simpl. rewrite Z.eqb_refl. reflexivity. Qed.

(** C6. [utils_mapFileToRead] always comes back to its caller.  The buffer
    it returns is NULL exactly when the open, the stat or the mapping
    fails; in each of these cases the size out-parameter is untouched and
    no descriptor is left open (after a failed stat or mapping the
    descriptor just opened has been closed).  Otherwise the buffer is the
    address of the mapping, the size out-parameter holds [st_size], and the
    descriptor is handed back open.  The kernel never maps at address 0. *)
Theorem mapFileToRead_result (k : kernel) (fileName : string) (fileSz fd : Z) (w : world) :
  (forall len d, sys_mmap k len d <> NULL) ->
  exists buf sz w',
    utils_mapFileToRead k fileName fileSz fd w = Done (buf, sz, sys_open k fileName) w' /\
    (buf = NULL <->
     open_fails k fileName || stat_fails k fileName || mapping_fails k fileName = true) /\
    (buf = NULL -> sz = fileSz /\ fd_open w' = fd_open w /\ mappings w' = mappings w) /\
    (buf <> NULL ->
     exists st, sys_fstat k (sys_open k fileName) = Some st /\
                sz = st_size st /\
                buf = sys_mmap k (st_size st) (sys_open k fileName) /\
                fd_open w' = sys_open k fileName :: fd_open w /\
                mappings w' = (buf, st_size st) :: mappings w).
Proof.
  intros Hmap.
  unfold utils_mapFileToRead, open, mmap, close, open_fails, stat_fails, mapping_fails. run.
  destruct (Z.eqb_spec (sys_open k fileName) (-1)) as [Eo|Eo]; simpl.
  - do 3 eexists. split; [reflexivity|]. repeat split; auto; try congruence.
  - destruct (sys_fstat k (sys_open k fileName)) as [st|] eqn:Es; simpl.
    + destruct (Z.eqb_spec (sys_mmap k (st_size st) (sys_open k fileName)) MAP_FAILED)
        as [Em|Em]; simpl.
      * do 3 eexists. split; [reflexivity|].
        rewrite Z.eqb_refl. repeat split; auto; try congruence.
      * do 3 eexists. split; [reflexivity|].
        split; [split; [intros E; exfalso; exact (Hmap _ _ E) | discriminate]|].
        split; [intros E; exfalso; exact (Hmap _ _ E)|].
        intros _. exists st. repeat split.
    + rewrite Z.eqb_refl. do 3 eexists. split; [reflexivity|].
      repeat split; auto; try congruence.
Qed.

Lemma mapFileToRead_result_witness :
  exists buf sz w',
    utils_mapFileToRead demo_kernel "boot.img" 0 0 (quiet []) = Done (buf, sz, 3) w' /\
    (buf = NULL <->
     open_fails demo_kernel "boot.img" || stat_fails demo_kernel "boot.img"
       || mapping_fails demo_kernel "boot.img" = true) /\
    (buf = NULL -> sz = 0 /\ fd_open w' = [] /\ mappings w' = []) /\
    (buf <> NULL ->
     exists st, Some (mkStat mode_reg 10) = Some st /\
                sz = st_size st /\
                buf = 4096 /\
                fd_open w' = [3] /\
                mappings w' = [(buf, st_size st)]).
Proof.
  apply (mapFileToRead_result demo_kernel "boot.img" 0 0 (quiet [])).
  intros len d. simpl. unfold NULL. lia.
Defined.

(** ** FileCollector: the walk *)

Lemma S_ISREG_not_S_ISDIR (m : Z) : S_ISREG m = true -> S_ISDIR m = false.
Proof.
  unfold S_ISREG, S_ISDIR. intros H.
  apply Z.eqb_eq in H. rewrite H. reflexivity.
Qed.

Lemma file_step_returns (path : string) (st : stat_t)
    (continue : infiles_t -> M (bool * infiles_t)) :
  (forall pf w, exists r w', continue pf w = Done r w') ->
  forall pf w, exists r w', file_step path st continue pf w = Done r w'.
Proof.
  intros Hk pf w. unfold file_step, realloc_files, strdup.
  destruct (S_ISREG (st_mode st)); simpl; [|run; apply Hk].
  destruct (st_size st =? 0); [run; apply Hk|].
  run.
  destruct (heap w) as [|p h]; simpl; [eauto|].
  destruct (p =? NULL) eqn:Ep; simpl; rewrite ?Ep; simpl; [eauto|].
  destruct h as [|q h']; simpl; [eauto|].
  destruct (q =? NULL); simpl; [eauto|apply Hk].
Qed.

(** The walk never ends the process: it always comes back with a flag. *)
Lemma readdir_returns :
  (forall d basePath pFiles w, exists r w', utils_readdir d basePath pFiles w = Done r w') /\
  (forall s basePath pFiles w, exists r w', readdir_loop s basePath pFiles w = Done r w').
Proof.
  apply dir_dirstream_ind.
  - intros. simpl. run. eauto.
  - intros s IH basePath pFiles w. simpl. run. apply IH.
  - intros. simpl. run. eauto.
  - intros errno rest IH basePath pFiles w. simpl.
    destruct (errno =? EINTR); [apply IH|].
    destruct (errno =? 0); simpl; run; eauto.
  - intros d_name st sub IHsub rest IHrest basePath pFiles w. simpl.
    destruct (is_dot d_name); [apply IHrest|].
    destruct st as [st|]; [|run; apply IHrest].
    destruct (S_ISDIR (st_mode st)).
    + unfold bind at 1.
      destruct (IHsub (join_path basePath d_name) pFiles w) as ([b pf1] & w1 & E).
      rewrite E. simpl. destruct b; simpl.
      * apply file_step_returns. intros. apply IHrest.
      * run. apply IHrest.
    + apply file_step_returns. intros. apply IHrest.
Qed.

(** An entry that is not a regular file, or is an empty one, leaves the
    file set alone: a debug note, then the next round. *)
Lemma file_step_skip (path : string) (st : stat_t)
    (continue : infiles_t -> M (bool * infiles_t)) (pf : infiles_t) (w : world) :
  S_ISREG (st_mode st) && negb (st_size st =? 0) = false ->
  exists text, file_step path st continue pf w = continue pf (log_to (mkLog Plain l_DEBUG text) w).
Proof.
  intros H. unfold file_step.
  destruct (S_ISREG (st_mode st)); simpl in *.
  - destruct (st_size st =? 0); [|discriminate]. eexists. reflexivity.
  - eexists. reflexivity.
Qed.

(** Where nothing below a directory is a regular non-empty file, the walk
    returns with the file set exactly as it found it. *)
Lemma walk_barren :
  (forall d, dir_sizes_ok d = true -> dir_has_file d = false ->
     forall basePath pFiles w, exists b w', utils_readdir d basePath pFiles w = Done (b, pFiles) w') /\
  (forall s, stream_sizes_ok s = true -> stream_has_file s = false ->
     forall basePath pFiles w, exists b w', readdir_loop s basePath pFiles w = Done (b, pFiles) w').
Proof.
  apply dir_dirstream_ind.
  - intros. simpl. run. eauto.
  - intros s IH Hok Hno basePath pFiles w. simpl. run. apply IH; assumption.
  - intros. simpl. run. eauto.
  - intros errno rest IH Hok Hno basePath pFiles w. simpl.
    destruct (errno =? EINTR); [apply IH; assumption|].
    destruct (errno =? 0); simpl; run; eauto.
  - intros d_name st sub IHsub rest IHrest Hok Hno basePath pFiles w.
    simpl in Hok, Hno. simpl.
    apply andb_true_iff in Hok. destruct Hok as [Hok Hokrest].
    apply andb_true_iff in Hok. destruct Hok as [Hst Hoksub].
    apply orb_false_iff in Hno. destruct Hno as [Hent Hnorest].
    destruct (is_dot d_name); [apply IHrest; assumption|]. simpl in Hent.
    destruct st as [st|]; [|run; apply IHrest; assumption].
    apply orb_false_iff in Hent. destruct Hent as [Hfile Hsub].
    assert (Hskip : S_ISREG (st_mode st) && negb (st_size st =? 0) = false).
    { unfold is_file in Hfile. destruct (S_ISREG (st_mode st)); simpl in *; [|reflexivity].
      apply Z.leb_le in Hst. apply Z.ltb_ge in Hfile.
      destruct (Z.eqb_spec (st_size st) 0); [reflexivity|lia]. }
    destruct (S_ISDIR (st_mode st)); simpl in Hsub.
    + unfold bind at 1.
      destruct (IHsub Hoksub Hsub (join_path basePath d_name) pFiles w) as (b & w1 & E).
      rewrite E. simpl. destruct b; simpl.
      * destruct (file_step_skip (join_path basePath d_name) st (readdir_loop rest basePath)
                    pFiles w1 Hskip) as (text & Es).
        rewrite Es. apply IHrest; assumption.
      * run. apply IHrest; assumption.
    + destruct (file_step_skip (join_path basePath d_name) st (readdir_loop rest basePath)
                  pFiles w Hskip) as (text & Es).
      rewrite Es. apply IHrest; assumption.
Qed.

(** *** What the walk stores *)

Lemma In_firstn {A : Type} (n : nat) (l : list A) (x : A) :
  In x (firstn n l) -> In x l.
Proof.
  revert l. induction n as [|n IH]; intros l H; simpl in H; [contradiction|].
  destruct l as [|y l]; simpl in *; [contradiction|].
  destruct H as [H|H]; [left; exact H|right; exact (IH _ H)].
Qed.

Lemma In_resize (n : nat) (cells : list slot) (p : string) :
  In (Some p) (resize n cells) -> In (Some p) cells.
Proof.
  unfold resize. intros H. apply In_firstn in H. apply in_app_or in H.
  destruct H as [H|H]; [exact H|]. apply repeat_spec in H. discriminate H.
Qed.

Lemma In_store (i : nat) (v : slot) (cells : list slot) (x : slot) :
  In x (store i v cells) -> In x cells \/ x = v.
Proof.
  revert i. induction cells as [|c cells IH]; intros i H.
  { destruct i; simpl in H; contradiction. }
  destruct i as [|i]; simpl in H.
  - destruct H as [H|H]; [right; symmetry; exact H|left; right; exact H].
  - destruct H as [H|H]; [left; left; exact H|].
    destruct (IH _ H) as [H'|H']; [left; right; exact H'|right; exact H'].
Qed.

Lemma cells_from_refl (pf : infiles_t) (paths : list string) : cells_from pf pf paths.
Proof. intros p H. left. exact H. Qed.

Lemma cells_from_trans (a b c : infiles_t) (l1 l2 : list string) :
  cells_from a b l1 -> cells_from b c l2 -> cells_from a c (l1 ++ l2).
Proof.
  intros H1 H2 p Hp. destruct (H2 p Hp) as [H|H].
  - destruct (H1 p H) as [H'|H']; [left; exact H'|right; apply in_or_app; left; exact H'].
  - right. apply in_or_app. right. exact H.
Qed.

Lemma file_step_cells (path : string) (st : stat_t)
    (continue : infiles_t -> M (bool * infiles_t)) (rest : list string) :
  0 <= st_size st ->
  (forall pf w r w', continue pf w = Done r w' -> cells_from pf (snd r) rest) ->
  forall pf w r w',
    file_step path st continue pf w = Done r w' ->
    cells_from pf (snd r) ((if is_file st then [path] else []) ++ rest).
Proof.
  intros Hsz Hk pf w r w' H. unfold file_step, is_file in *.
  destruct (S_ISREG (st_mode st)); simpl in H |- *.
  2:{ run. exact (Hk _ _ _ _ H). }
  destruct (Z.eqb_spec (st_size st) 0) as [E|E].
  { run. rewrite E. simpl. exact (Hk _ _ _ _ H). }
  destruct (Z.ltb_spec 0 (st_size st)) as [_|Hle]; [|lia].
  unfold realloc_files, strdup in H. run.
  destruct (heap w) as [|q h].
  - simpl in H. injection H as <- _. intros p Hp. simpl in Hp. contradiction.
  - simpl in H. destruct (q =? NULL) eqn:Eq; simpl in H; rewrite ?Eq in H; simpl in H.
    + injection H as <- _. intros p Hp. simpl in Hp. contradiction.
    + assert (Hst : forall c, (c = None \/ c = Some path) ->
                cells_from pf
                  (set_files (q, store (fileCnt pf) c (resize (fileCnt pf + 1) (snd (files pf))))
                     pf) [path]).
      { intros c Hc p Hp. simpl in Hp. apply In_store in Hp. destruct Hp as [Hp|Hp].
        - left. exact (In_resize _ _ _ Hp).
        - destruct Hc as [->| ->]; [discriminate Hp|].
          injection Hp as ->. right. left. reflexivity. }
      destruct h as [|q2 h]; simpl in H.
      * injection H as <- _. intros p Hp. destruct (Hst None (or_introl eq_refl) p Hp) as [Hq|Hq].
        -- left. exact Hq.
        -- right. destruct Hq as [Hq|[]]. left. exact Hq.
      * destruct (q2 =? NULL); simpl in H.
        -- injection H as <- _. intros p Hp.
           destruct (Hst None (or_introl eq_refl) p Hp) as [Hq|Hq].
           ++ left. exact Hq.
           ++ right. destruct Hq as [Hq|[]]. left. exact Hq.
        -- apply Hk in H.
           exact (cells_from_trans _ _ _ _ _ (Hst (Some path) (or_intror eq_refl)) H).
Qed.

(** Whatever the walk leaves in the file array beyond what was there is
    the path of a regular file of size greater than 0 that it has met. *)
Lemma walk_cells :
  (forall d, dir_sizes_ok d = true ->
     forall basePath pf w r w', utils_readdir d basePath pf w = Done r w' ->
     cells_from pf (snd r) (dir_files d basePath)) /\
  (forall s, stream_sizes_ok s = true ->
     forall basePath pf w r w', readdir_loop s basePath pf w = Done r w' ->
     cells_from pf (snd r) (stream_files s basePath)).
Proof.
  apply dir_dirstream_ind.
  - intros _ basePath pf w r w' H. simpl in H. run. injection H as <- _. apply cells_from_refl.
  - intros s IH Hok basePath pf w r w' H. simpl in H. run. exact (IH Hok _ _ _ _ _ H).
  - intros _ basePath pf w r w' H. simpl in H. run. injection H as <- _. apply cells_from_refl.
  - intros errno rest IH Hok basePath pf w r w' H. simpl in H, Hok |- *.
    destruct (errno =? EINTR); [exact (IH Hok _ _ _ _ _ H)|].
    destruct (errno =? 0); simpl in H; run; injection H as <- _;
      intros p Hp; left; exact Hp.
  - intros d_name st sub IHsub rest IHrest Hok basePath pf w r w' H.
    simpl in Hok. apply andb_true_iff in Hok. destruct Hok as [Hok Hokrest].
    apply andb_true_iff in Hok. destruct Hok as [Hst Hoksub].
    simpl in H. cbn [stream_files].
    destruct (is_dot d_name); [exact (IHrest Hokrest _ _ _ _ _ H)|].
    destruct st as [st|]; [|run; exact (IHrest Hokrest _ _ _ _ _ H)].
    apply Z.leb_le in Hst.
    assert (Hk : forall pf0 w0 r0 w0',
              readdir_loop rest basePath pf0 w0 = Done r0 w0' ->
              cells_from pf0 (snd r0) (stream_files rest basePath))
      by (intros; eapply IHrest; eassumption).
    destruct (S_ISDIR (st_mode st)).
    + unfold bind at 1 in H.
      destruct (utils_readdir sub (join_path basePath d_name) pf w) as [[b pf1] w1|w1] eqn:Es;
        [|discriminate].
      pose proof (IHsub Hoksub _ _ _ _ _ Es) as Hsub. simpl in Hsub, H.
      destruct b; simpl in H.
      * apply (file_step_cells _ _ _ _ Hst Hk) in H.
        rewrite <- app_assoc.
        exact (cells_from_trans _ _ _ _ _ Hsub H).
      * run. apply Hk in H. rewrite <- app_assoc.
        apply (cells_from_trans _ _ _ _ _ Hsub).
        intros p Hp. destruct (H p Hp) as [Hq|Hq]; [left; exact Hq|].
        right. apply in_or_app. right. exact Hq.
    + apply (file_step_cells _ _ _ _ Hst Hk) in H. exact H.
Qed.

(** For a directory root, every path in the file set after
    [utils_init_files] is a regular file of size greater than 0 met by the
    walk: the entries the walk appends do satisfy the invariant. *)
Lemma init_directory_cells (fs : filesystem) (input : string) (st : stat_t)
    (pFiles : infiles_t) (w : world) (r : bool * infiles_t) (w' : world) :
  inputFile pFiles = Some input ->
  fst (fs input) = Some st ->
  S_ISDIR (st_mode st) = true ->
  dir_sizes_ok (snd (fs input)) = true ->
  utils_init_files fs pFiles w = Done r w' ->
  forall p, In (Some p) (snd (files (snd r))) -> In p (dir_files (snd (fs input)) input).
Proof.
  intros Hin Hst Hdir Hok H p Hp.
  unfold utils_init_files in H. run.
  destruct (heap w) as [|q h]; simpl in H.
  - injection H as <- _. simpl in Hp. contradiction.
  - destruct (q =? NULL); simpl in H.
    + injection H as <- _. simpl in Hp. contradiction.
    + rewrite Hin, Hst, Hdir in H.
      destruct (utils_readdir (snd (fs input)) input (set_files (q, [None]) pFiles)
                  (set_heap h w)) as [[b pf1] w1|w1] eqn:Ew; [|discriminate].
      pose proof (proj1 walk_cells _ Hok _ _ _ _ _ Ew) as Hc. simpl in H, Hc.
      assert (Hr : snd r = pf1).
      { destruct b; simpl in H.
        - destruct (fileCnt pf1 =? 0)%nat; simpl in H; injection H as <- _; reflexivity.
        - injection H as <- _. reflexivity. }
      rewrite Hr in Hp. destruct (Hc p Hp) as [Hq|Hq]; [|exact Hq].
      simpl in Hq. destruct Hq as [Hq|[]]. discriminate Hq.
Qed.

(** C1, as the code has it.  When the [realloc] of the append, or the
    [strdup] that follows it, fails on a regular non-empty entry, the walk
    logs an error, closes its directory stream and returns [false] to its
    caller, the file count unchanged; and no call of the walk ever ends the
    process. *)
Theorem alloc_failure_returns_false (d_name : string) (st : stat_t) (sub : dir)
    (rest : dirstream) (basePath : string) (pFiles : infiles_t) (w : world) :
  is_dot d_name = false ->
  S_ISREG (st_mode st) = true ->
  st_size st <> 0 ->
  hd NULL (heap w) = NULL \/ hd NULL (tl (heap w)) = NULL ->
  (exists pFiles' w',
     readdir_loop (DEntry d_name (Some st) sub rest) basePath pFiles w =
       Done (false, pFiles') w' /\
     fileCnt pFiles' = fileCnt pFiles /\
     dir_open w' = dir_open w - 1 /\
     logs w' = mkLog WithErrno l_ERROR "Couldn't allocate memory" :: logs w) /\
  (forall d b p w0, exists r w', utils_readdir d b p w0 = Done r w').
Proof.
  intros Hdot Hreg Hsz Hoom. split; [|apply readdir_returns].
  simpl. rewrite Hdot, (S_ISREG_not_S_ISDIR _ Hreg).
  unfold file_step, realloc_files, strdup. rewrite Hreg. simpl.
  destruct (Z.eqb_spec (st_size st) 0) as [E|_]; [contradiction|].
  run.
  destruct (heap w) as [|p h]; simpl in *.
  - do 2 eexists. repeat split.
  - destruct (Z.eqb_spec p NULL) as [Ep|Ep]; simpl.
    + do 2 eexists. repeat split.
    + destruct (Z.eqb_spec p NULL) as [Ep'|_]; [contradiction|]. simpl.
      destruct Hoom as [Hp|Hq]; [contradiction|].
      destruct h as [|q h']; simpl in *.
      * do 2 eexists. repeat split.
      * subst q. simpl. do 2 eexists. repeat split.
Qed.

Lemma alloc_failure_returns_false_witness :
  (exists pFiles' w',
     readdir_loop (DEntry "boot.img" (Some (mkStat mode_reg 5)) NoDir DEnd) "/img/one"
       (empty_set "/img/one") (quiet [4096; NULL]) = Done (false, pFiles') w' /\
     fileCnt pFiles' = fileCnt (empty_set "/img/one") /\
     dir_open w' = dir_open (quiet [4096; NULL]) - 1 /\
     logs w' = mkLog WithErrno l_ERROR "Couldn't allocate memory" :: logs (quiet [4096; NULL])) /\
  (forall d b p w0, exists r w', utils_readdir d b p w0 = Done r w').
Proof.
  apply (alloc_failure_returns_false "boot.img" (mkStat mode_reg 5) NoDir DEnd "/img/one"
           (empty_set "/img/one") (quiet [4096; NULL])).
  - reflexivity.
  - reflexivity.
  - simpl. lia.
  - right. reflexivity.
Defined.

(** C1, as the specification has it, fails: with no memory left for the
    append, the walk over a directory holding one regular file returns
    [false] to its caller; the process is not ended.  The same holds one
    level up, where [utils_init_files] passes the failure on. *)
Lemma alloc_failure_does_not_exit :
  hd NULL (heap (quiet [])) = NULL /\
  utils_readdir one_file_dir "/img/one" (empty_set "/img/one") (quiet []) =
    Done (false, empty_set "/img/one")
      (mkWorld [] [] [] [] [] [] 0 [mkLog WithErrno l_ERROR "Couldn't allocate memory"]) /\
  (forall w', utils_readdir one_file_dir "/img/one" (empty_set "/img/one") (quiet []) <> Exit w') /\
  exists pFiles' w',
    utils_init_files demo_fs (empty_set "/img/one") (quiet [4096]) = Done (false, pFiles') w'.
Proof.
  split; [reflexivity|]. split; [reflexivity|]. split.
  - intros w' H. vm_compute in H. discriminate H.
  - do 2 eexists. vm_compute. reflexivity.
Qed.



(** ** FileCollector: [utils_init_files] *)

(** C8. For a root that is a directory below which there is no regular
    file of size greater than 0, and a file set that comes in empty,
    [utils_init_files] reports failure, whatever else happens on the way. *)
Theorem barren_directory_fails (fs : filesystem) (input : string) (st : stat_t)
    (pFiles : infiles_t) (w : world) :
  inputFile pFiles = Some input ->
  fileCnt pFiles = 0%nat ->
  fst (fs input) = Some st ->
  S_ISDIR (st_mode st) = true ->
  dir_sizes_ok (snd (fs input)) = true ->
  dir_has_file (snd (fs input)) = false ->
  exists pFiles' w',
    utils_init_files fs pFiles w = Done (false, pFiles') w' /\ fileCnt pFiles' = 0%nat.
Proof.
  intros Hin Hcnt Hst Hdir Hok Hno.
  unfold utils_init_files. run.
  destruct (heap w) as [|p h]; simpl.
  - do 2 eexists. split; [reflexivity|exact Hcnt].
  - destruct (Z.eqb_spec p NULL) as [Ep|Ep]; simpl.
    + do 2 eexists. split; [reflexivity|exact Hcnt].
    + rewrite Hin, Hst, Hdir.
      destruct (proj1 walk_barren _ Hok Hno input
                  (set_files (p, [None]) pFiles) (set_heap h w)) as (b & w1 & E).
      rewrite E. simpl. rewrite Hcnt. simpl.
      destruct b; simpl; do 2 eexists; (split; [reflexivity|exact Hcnt]).
Qed.

Lemma barren_directory_fails_witness :
  exists pFiles' w',
    utils_init_files demo_fs (empty_set "/img/barren") (quiet [4096; 4104; 4112]) =
      Done (false, pFiles') w' /\ fileCnt pFiles' = 0%nat.
Proof.
  apply (barren_directory_fails demo_fs "/img/barren" (mkStat mode_dir 4096)
           (empty_set "/img/barren") (quiet [4096; 4104; 4112]));
    reflexivity.
Defined.

(** C2, at the failing input.  The root [/img/empty.img] is a regular file
    of size 0, and [utils_init_files] returns success with a one-element
    file set: the single-file path has no size test. *)
Theorem empty_root_file_is_accepted :
  fst (demo_fs "/img/empty.img") = Some (mkStat mode_reg 0) /\
  S_ISREG mode_reg = true /\
  utils_init_files demo_fs (empty_set "/img/empty.img") (quiet [4096]) =
    Done (true, mkInfiles (Some "/img/empty.img") (4096, [Some "/img/empty.img"]) 1)
      (quiet []).
Proof. repeat split. Qed.

(** C3, at the failing input.  After that successful run the entry stored
    at index 0 is a path that [stat] reported as a regular file of size 0. *)
Theorem stored_entry_may_be_empty :
  exists pFiles' w' path st,
    utils_init_files demo_fs (empty_set "/img/empty.img") (quiet [4096]) =
      Done (true, pFiles') w' /\
    fileCnt pFiles' = 1%nat /\
    nth_error (snd (files pFiles')) 0 = Some (Some path) /\
    fst (demo_fs path) = Some st /\
    S_ISREG (st_mode st) = true /\
    st_size st = 0.
Proof.
  exists (mkInfiles (Some "/img/empty.img") (4096, [Some "/img/empty.img"]) 1), (quiet []),
    "/img/empty.img", (mkStat mode_reg 0).
  repeat split.
Qed.

(** The same invariant breaks in a second way.  An allocation failure
    inside a subdirectory sets [files] to NULL and is then skipped by the
    parent; the next append starts a fresh array, so the successful run
    below ends with [fileCnt = 2] and a single path, at index 1. *)
Example skipped_alloc_failure_loses_entries :
  utils_init_files demo_fs (empty_set "/img/three") (quiet [4096; 4104; 4112; NULL; 4120; 4128])
  = Done (true, mkInfiles (Some "/img/three") (4120, [None; Some "/img/three/c.img"]) 2)
      (mkWorld [] [] [] [] [] [] 0
         [mkLog Plain l_INFO "2 input files have been added to the list";
          mkLog Plain l_DEBUG "Added '/img/three/c.img' to the list of input files";
          mkLog Plain l_ERROR "Failed to process '/img/three/sub' directory";
          mkLog WithErrno l_ERROR "Couldn't allocate memory";
          mkLog Plain l_DEBUG "Added '/img/three/a.img' to the list of input files"]).
Proof. vm_compute. reflexivity. Qed.

(** ** RawIO: the write loop *)

Lemma firstn_plus {A : Type} (a b : nat) (l : list A) :
  (firstn a l ++ firstn b (skipn a l))%list = firstn (a + b) l.
Proof.
  revert l. induction a as [|a IH]; intros l; simpl; [reflexivity|].
  destruct l as [|x l]; simpl.
  - rewrite firstn_nil. reflexivity.
  - rewrite IH. reflexivity.
Qed.

Lemma chunk_app (buf : list byte) (written sz more : Z) :
  0 <= written -> 0 <= sz -> 0 <= more ->
  (chunk buf written sz ++ chunk buf (written + sz) more)%list = chunk buf written (sz + more).
Proof.
  intros Hw Hs Hm. unfold chunk.
  rewrite !Z2Nat.inj_add by lia.
  rewrite (Nat.add_comm (Z.to_nat written)), <- skipn_skipn.
  apply firstn_plus.
Qed.

Lemma chunk_nonpos (buf : list byte) (written sz : Z) :
  sz <= 0 -> chunk buf written sz = [].
Proof.
  intros H. unfold chunk. destruct sz; try reflexivity. lia.
Qed.

Lemma bytes_to_transfer (fd : Z) (bytes : list byte) (done : list (Z * list byte)) :
  bytes_to fd (done ++ [(fd, bytes)]) = (bytes_to fd done ++ bytes)%list.
Proof.
  induction done as [|[fd' b] tl IH]; simpl.
  - rewrite Z.eqb_refl, app_nil_r. reflexivity.
  - rewrite IH, app_assoc. reflexivity.
Qed.

Lemma accepted_nonneg (script : list write_res) : 0 <= accepted script.
Proof. induction script as [|[k|e] tl IH]; simpl; lia. Qed.

Lemma reaches_nil (n : Z) : ~ reaches_hard_error [] n.
Proof. intros (pre & e & post & H & _). destruct pre; discriminate H. Qed.

Lemma reaches_nonpos (script : list write_res) (n : Z) :
  n <= 0 -> ~ reaches_hard_error script n.
Proof.
  intros Hn (pre & e & post & _ & _ & _ & H).
  pose proof (accepted_nonneg pre). lia.
Qed.

Lemma reaches_bytes (k : nat) (script : list write_res) (n : Z) :
  0 < n ->
  reaches_hard_error (WBytes k :: script) n <->
  reaches_hard_error script (n - Z.min (Z.of_nat k) n).
Proof.
  intros Hn. split.
  - intros (pre & e & post & Hs & He & Hpre & Hacc).
    destruct pre as [|r pre]; [discriminate Hs|].
    injection Hs as Hr Hs. subst r script. simpl in Hpre, Hacc.
    pose proof (accepted_nonneg pre).
    exists pre, e, post. repeat split; auto. lia.
  - intros (pre & e & post & -> & He & Hpre & Hacc).
    pose proof (accepted_nonneg pre).
    exists (WBytes k :: pre), e, post. repeat split; auto. simpl. lia.
Qed.

Lemma reaches_eintr (script : list write_res) (n : Z) :
  reaches_hard_error (WErr EINTR :: script) n <-> reaches_hard_error script n.
Proof.
  split.
  - intros (pre & e & post & Hs & He & Hpre & Hacc).
    destruct pre as [|r pre].
    + injection Hs as Hr _. subst e. contradiction.
    + injection Hs as Hr Hs. subst r script. exists pre, e, post. repeat split; auto.
  - intros (pre & e & post & -> & He & Hpre & Hacc).
    exists (WErr EINTR :: pre), e, post. repeat split; auto.
Qed.

Lemma reaches_hard (e : Z) (script : list write_res) (n : Z) :
  e <> EINTR -> 0 < n -> reaches_hard_error (WErr e :: script) n.
Proof. intros He Hn. exists [], e, script. repeat split; auto. Qed.

(** The loop from any point on: it returns; on success the bytes handed to
    [fd] are the rest of the buffer up to [fileSz]; it fails exactly when
    it meets a hard error. *)
Lemma writeToFd_loop_spec (fd : Z) (buf : list byte) (fileSz : Z) (script : list write_res) :
  forall written w, 0 <= written ->
  exists b w',
    writeToFd_loop script fd buf fileSz written w = Done b w' /\
    (b = true ->
     bytes_to fd (wr_done w') =
     (bytes_to fd (wr_done w) ++ chunk buf written (fileSz - written))%list) /\
    (b = false <-> reaches_hard_error script (fileSz - written)).
Proof.
  induction script as [|r script IH]; intros written w Hw; simpl.
  - destruct (Z.ltb_spec written fileSz) as [Hlt|Hge].
    + do 2 eexists. split; [reflexivity|]. split.
      * intros _. unfold transfer. simpl. apply bytes_to_transfer.
      * split; [discriminate|]. intros H. elim (reaches_nil _ H).
    + do 2 eexists. split; [reflexivity|]. split.
      * intros _. rewrite chunk_nonpos by lia. rewrite app_nil_r. reflexivity.
      * split; [discriminate|]. intros H. exfalso. revert H. apply reaches_nonpos. lia.
  - destruct (Z.ltb_spec written fileSz) as [Hlt|Hge].
    + destruct r as [k|e]; simpl.
      * destruct (Z.ltb_spec (Z.min (Z.of_nat k) (fileSz - written)) 0) as [Hneg|Hpos];
          [lia|]. simpl.
        destruct (IH (written + Z.min (Z.of_nat k) (fileSz - written))
                    (transfer fd (chunk buf written (Z.min (Z.of_nat k) (fileSz - written)))
                       (set_wr_script script w)) ltac:(lia))
          as (b & w' & E & Hbytes & Hfail).
        exists b, w'. split; [exact E|]. split.
        -- intros Hb. rewrite (Hbytes Hb). unfold transfer. simpl.
           rewrite bytes_to_transfer, <- app_assoc. f_equal.
           rewrite chunk_app by lia. f_equal. lia.
        -- rewrite Hfail, (reaches_bytes k script (fileSz - written)) by lia.
           replace (fileSz - (written + Z.min (Z.of_nat k) (fileSz - written)))
             with (fileSz - written - Z.min (Z.of_nat k) (fileSz - written)) by lia.
           reflexivity.
      * destruct (Z.eqb_spec e EINTR) as [->|Hne]; simpl.
        -- destruct (IH written (set_wr_script script w) Hw) as (b & w' & E & Hbytes & Hfail).
           exists b, w'. split; [exact E|]. split; [exact Hbytes|].
           rewrite Hfail, reaches_eintr. reflexivity.
        -- do 2 eexists. split; [reflexivity|]. split; [discriminate|].
           split; [|reflexivity]. intros _. apply reaches_hard; [exact Hne|lia].
    + do 2 eexists. split; [reflexivity|]. split.
      * intros _. rewrite chunk_nonpos by lia. rewrite app_nil_r. reflexivity.
      * split; [discriminate|]. intros H. exfalso. revert H. apply reaches_nonpos. lia.
Qed.

Lemma writeToFd_loop_done (fd : Z) (buf : list byte) (fileSz written : Z)
    (script : list write_res) (w : world) :
  (written <? fileSz) = false ->
  writeToFd_loop script fd buf fileSz written w = Done true w.
Proof. intros H. destruct script; simpl; rewrite H; reflexivity. Qed.

(** Interrupted writes leave no trace: without them in the script the loop
    returns the same flag and hands over the same bytes. *)
Lemma writeToFd_loop_eintr (fd : Z) (buf : list byte) (fileSz : Z) (script : list write_res) :
  forall written w w2, wr_done w = wr_done w2 ->
  exists b w' w2',
    writeToFd_loop script fd buf fileSz written w = Done b w' /\
    writeToFd_loop (filter (fun r => negb (interrupted r)) script) fd buf fileSz written w2 =
      Done b w2' /\
    wr_done w' = wr_done w2'.
Proof.
  induction script as [|r script IH]; intros written w w2 Hd.
  - simpl. destruct (written <? fileSz); do 3 eexists; repeat split; auto.
    unfold transfer. simpl. rewrite Hd. reflexivity.
  - destruct (written <? fileSz) eqn:Hlt.
    2:{ rewrite !writeToFd_loop_done by exact Hlt. do 3 eexists. repeat split; auto. }
    destruct r as [k|e]; simpl; rewrite Hlt.
    + destruct (Z.min (Z.of_nat k) (fileSz - written) <? 0); simpl.
      * do 3 eexists. repeat split; auto.
      * apply IH. unfold transfer. simpl. rewrite Hd. reflexivity.
    + destruct (Z.eqb_spec e EINTR) as [->|Hne]; simpl.
      * apply IH. exact Hd.
      * rewrite Hlt. simpl. destruct (Z.eqb_spec e EINTR) as [?|_]; [contradiction|]. simpl.
        do 3 eexists. repeat split; auto.
Qed.

(** C5. For a length that is not negative and a buffer that holds that
    many bytes, [utils_writeToFd] always comes back with a flag (it never
    ends the process).  It goes on after short writes and after writes
    interrupted by [EINTR], which change neither the flag nor the bytes
    handed over.  When it returns success, the bytes handed to [fd] are
    exactly the first [fileSz] bytes of the buffer.  It returns failure
    exactly when a write fails with another error before all bytes have
    been taken. *)
Theorem writeToFd_writes_all (fd : Z) (buf : list byte) (fileSz : Z) (w : world) :
  0 <= fileSz <= Z.of_nat (List.length buf) ->
  exists b w',
    utils_writeToFd fd buf fileSz w = Done b w' /\
    (b = true ->
     bytes_to fd (wr_done w') =
       (bytes_to fd (wr_done w) ++ firstn (Z.to_nat fileSz) buf)%list /\
     Z.of_nat (List.length (firstn (Z.to_nat fileSz) buf)) = fileSz) /\
    (b = false <-> reaches_hard_error (wr_script w) fileSz) /\
    (exists w2,
       utils_writeToFd fd buf fileSz
         (set_wr_script (filter (fun r => negb (interrupted r)) (wr_script w)) w) = Done b w2 /\
       wr_done w2 = wr_done w').
Proof.
  intros Hlen. unfold utils_writeToFd.
  destruct (writeToFd_loop_spec fd buf fileSz (wr_script w) 0 w ltac:(lia))
    as (b & w' & E & Hbytes & Hfail).
  exists b, w'. split; [exact E|]. split; [|split].
  - intros Hb. split.
    + rewrite (Hbytes Hb). unfold chunk. simpl. rewrite Z.sub_0_r. reflexivity.
    + rewrite length_firstn. lia.
  - rewrite Z.sub_0_r in Hfail. exact Hfail.
  - destruct (writeToFd_loop_eintr fd buf fileSz (wr_script w) 0 w
                (set_wr_script (filter (fun r => negb (interrupted r)) (wr_script w)) w)
                eq_refl) as (b' & w1 & w2 & E1 & E2 & Hd).
    rewrite E in E1. injection E1 as <- <-.
    exists w2. split; [exact E2|]. symmetry. exact Hd.
Qed.

Lemma writeToFd_writes_all_witness :
  exists b w',
    utils_writeToFd 1 twenty_bytes 4 slow_device = Done b w' /\
    (b = true ->
     bytes_to 1 (wr_done w') =
       (bytes_to 1 (wr_done slow_device) ++ firstn (Z.to_nat 4) twenty_bytes)%list /\
     Z.of_nat (List.length (firstn (Z.to_nat 4) twenty_bytes)) = 4) /\
    (b = false <-> reaches_hard_error (wr_script slow_device) 4) /\
    (exists w2,
       utils_writeToFd 1 twenty_bytes 4
         (set_wr_script (filter (fun r => negb (interrupted r)) (wr_script slow_device))
            slow_device) = Done b w2 /\
       wr_done w2 = wr_done w').
Proof.
  apply (writeToFd_writes_all 1 twenty_bytes 4 slow_device). simpl. lia.
Defined.

(** ** Diagnostics *)

Lemma sapp_assoc (a b c : string) : ((a ++ b) ++ c = a ++ b ++ c)%string.
Proof. induction a as [|x a IH]; simpl; [reflexivity|]. rewrite IH. reflexivity. Qed.

Lemma sapp_nil_r (a : string) : (a ++ "" = a)%string.
Proof. induction a as [|x a IH]; simpl; [reflexivity|]. rewrite IH. reflexivity. Qed.

Lemma slength_app (a b : string) :
  String.length (a ++ b) = (String.length a + String.length b)%nat.
Proof. induction a as [|x a IH]; simpl; [reflexivity|]. rewrite IH. reflexivity. Qed.

Lemma emitted_refl (w : world) : emitted w w "".
Proof. unfold emitted. rewrite sapp_nil_r. reflexivity. Qed.

Lemma emitted_trans (w w1 w2 : world) (a b : string) :
  emitted w w1 a -> emitted w1 w2 b -> emitted w w2 (a ++ b).
Proof. unfold emitted. intros H1 H2. rewrite H2, H1, sapp_assoc. reflexivity. Qed.

Lemma LOGMSG_RAW_debug (text : string) (w : world) :
  LOGMSG_RAW l_DEBUG text w = Done tt (log_to (mkLog Raw l_DEBUG text) w).
Proof. reflexivity. Qed.

Lemma emitted_log (k : log_kind) (lvl : log_level) (text : string) (w : world) :
  emitted w (log_to (mkLog k lvl text) w) text.
Proof. reflexivity. Qed.

Lemma gutter_byte_not_nul (b : byte) : Byte.eqb (gutter_byte b) x00 = false.
Proof. destruct b; reflexivity. Qed.

Lemma cstring_gutter (row : list byte) (r : list byte) :
  cstring (map gutter_byte row ++ x00 :: r) = gutter row.
Proof.
  unfold gutter. induction row as [|b row IH]; simpl; [reflexivity|].
  rewrite gutter_byte_not_nul, IH. reflexivity.
Qed.

Lemma store_at (g : list byte) (v r0 : byte) (r : list byte) :
  store (List.length g) v (g ++ r0 :: r) = (g ++ v :: r)%list.
Proof. induction g as [|x g IH]; simpl; [reflexivity|]. rewrite IH. reflexivity. Qed.

Lemma rem16_offset (i0 k : Z) :
  0 <= i0 -> Z.rem i0 16 = 0 -> 0 <= k < 16 -> Z.rem (i0 + k) 16 = k.
Proof.
  intros H0 Hr Hk. rewrite Z.rem_mod_nonneg in * by lia.
  Z.div_mod_to_equations. lia.
Qed.

Lemma rem16_next_row (i0 : Z) :
  0 <= i0 -> Z.rem i0 16 = 0 -> Z.rem (i0 + 16) 16 = 0.
Proof.
  intros H0 Hr. rewrite Z.rem_mod_nonneg in * by lia.
  Z.div_mod_to_equations. lia.
Qed.

Lemma skipn_head (pc : list byte) (n : nat) (b : byte) (tl : list byte) :
  skipn n pc = b :: tl -> nth n pc x00 = b /\ skipn (S n) pc = tl.
Proof.
  revert pc. induction n as [|n IH]; intros pc H.
  - simpl in H. subst pc. split; reflexivity.
  - destruct pc as [|x pc]; [discriminate H|]. simpl in H. apply IH in H. exact H.
Qed.

(** One round of the loop, with the row buffer split at the column of
    byte [i]. *)
Lemma hexDump_body_spec (pc : list byte) (i0 : Z) (g : list byte) (r0 r1 : byte)
    (r : list byte) (w : world) :
  0 <= i0 -> Z.rem i0 16 = 0 -> (List.length g < 16)%nat ->
  let i := i0 + Z.of_nat (List.length g) in
  let c := peek pc i in
  exists w',
    hexDump_body pc i (g ++ r0 :: r1 :: r) w =
      Done (g ++ gutter_byte c :: x00 :: r)%list w' /\
    emitted w w'
      ((match g with
        | [] => (if (i0 =? 0)%Z then "" else "  " ++ cstring (g ++ r0 :: r1 :: r)%list ++ nl)
                  ++ "  " ++ fmt_0x 4 i0 ++ " "
        | _ => ""
        end) ++ " " ++ fmt_0x 2 (byte_val c))%string.
Proof.
  intros H0 Hr Hg i c.
  assert (Hrem : Z.rem i 16 = Z.of_nat (List.length g))
    by (apply rem16_offset; [assumption|assumption|lia]).
  assert (Hbuf : store (Z.to_nat (Z.rem i 16 + 1)) x00
                   (store (Z.to_nat (Z.rem i 16)) (gutter_byte c) (g ++ r0 :: r1 :: r)) =
                 (g ++ gutter_byte c :: x00 :: r)%list).
  { rewrite Hrem, Nat2Z.id, store_at.
    replace (Z.to_nat (Z.of_nat (List.length g) + 1)) with (List.length (g ++ [gutter_byte c]))
      by (rewrite length_app; simpl; lia).
    replace (g ++ gutter_byte c :: r1 :: r)%list with ((g ++ [gutter_byte c]) ++ r1 :: r)%list
      by (rewrite <- app_assoc; reflexivity).
    rewrite store_at, <- app_assoc. reflexivity. }
  unfold hexDump_body. fold c.
  replace (if (byte_val c <? 32) || (byte_val c >? 126)
           then store (Z.to_nat (Z.rem i 16)) "."%byte (g ++ r0 :: r1 :: r)
           else store (Z.to_nat (Z.rem i 16)) c (g ++ r0 :: r1 :: r))
    with (store (Z.to_nat (Z.rem i 16)) (gutter_byte c) (g ++ r0 :: r1 :: r))
    by (unfold gutter_byte; destruct ((byte_val c <? 32) || (byte_val c >? 126)); reflexivity).
  rewrite Hbuf, Hrem.
  destruct g as [|x g]; simpl List.length; simpl Z.of_nat.
  - assert (Hi : i = i0) by (unfold i; simpl; lia). rewrite Hi. simpl app.
    rewrite Z.eqb_refl.
    destruct (Z.eqb_spec i0 0) as [Ez|Ez];
      cbv beta iota delta [bind ret LOGMSG_RAW log_msg negb];
      (eexists; split; [reflexivity|]);
      unfold emitted; cbn [logs set_logs log_text lr_text];
      rewrite ?sapp_assoc; reflexivity.
  - destruct (Z.eqb_spec (Z.pos (Pos.of_succ_nat (List.length g))) 0) as [E|_]; [lia|].
    cbv beta iota delta [bind ret LOGMSG_RAW log_msg negb].
    eexists. split; [reflexivity|].
    unfold emitted. cbn [logs set_logs log_text lr_text]. reflexivity.
Qed.

Lemma hexDump_for_split (a b : nat) (pc : list byte) :
  forall i buff w,
  hexDump_for (a + b) pc i buff w =
  match hexDump_for a pc i buff w with
  | Done r w' => hexDump_for b pc (fst r) (snd r) w'
  | Exit w' => Exit w'
  end.
Proof.
  induction a as [|a IH]; intros i buff w; simpl; [reflexivity|].
  unfold bind. destruct (hexDump_body pc i buff w) as [buff' w'|w']; [|reflexivity].
  apply IH.
Qed.

(** The rounds within a row, after its first byte: [g] is what the row
    buffer holds of the row so far. *)
Lemma hexDump_for_in_row (pc : list byte) (i0 : Z) (row : list byte) :
  forall (g r post : list byte) (w : world),
  0 <= i0 -> Z.rem i0 16 = 0 ->
  (1 <= List.length g)%nat -> (List.length g + List.length row <= 16)%nat ->
  List.length (g ++ x00 :: r) = 17%nat ->
  skipn (Z.to_nat (i0 + Z.of_nat (List.length g))) pc = (row ++ post)%list ->
  exists r' w',
    hexDump_for (List.length row) pc (i0 + Z.of_nat (List.length g)) (g ++ x00 :: r) w =
      Done (i0 + Z.of_nat (List.length g + List.length row),
            (g ++ map gutter_byte row) ++ x00 :: r')%list w' /\
    List.length ((g ++ map gutter_byte row) ++ x00 :: r') = 17%nat /\
    emitted w w' (hexes row).
Proof.
  induction row as [|b row IH]; intros g r post w H0 Hr Hg1 Hg16 Hlen Hskip.
  - simpl. exists r, w. rewrite Nat.add_0_r, app_nil_r.
    split; [reflexivity|]. split; [exact Hlen|apply emitted_refl].
  - simpl in Hg16. simpl List.length.
    destruct r as [|r1 r]; [rewrite length_app in Hlen; simpl in Hlen; lia|].
    destruct (hexDump_body_spec pc i0 g x00 r1 r w H0 Hr ltac:(lia)) as (w1 & Eb & Em).
    change ((b :: row) ++ post)%list with (b :: (row ++ post))%list in Hskip.
    apply skipn_head in Hskip. destruct Hskip as [Hpeek Hskip].
    unfold peek in Eb, Em. rewrite Hpeek in Eb, Em.
    simpl hexDump_for. unfold bind. rewrite Eb.
    replace (g ++ gutter_byte b :: x00 :: r)%list
      with ((g ++ [gutter_byte b]) ++ x00 :: r)%list
      by (rewrite <- app_assoc; reflexivity).
    replace (i0 + Z.of_nat (List.length g) + 1)
      with (i0 + Z.of_nat (List.length (g ++ [gutter_byte b])))
      by (rewrite length_app; simpl; lia).
    destruct (IH (g ++ [gutter_byte b])%list r post w1 H0 Hr) as (r' & w' & E & Hl & Em').
    + rewrite length_app. simpl. lia.
    + rewrite length_app. simpl. lia.
    + rewrite !length_app in *. simpl in *. lia.
    + rewrite <- Hskip. f_equal. rewrite length_app. simpl. lia.
    + exists r', w'. rewrite E. split; [|split].
      * f_equal. f_equal; [rewrite length_app; simpl; lia|].
        rewrite <- !app_assoc. reflexivity.
      * rewrite <- Hl. f_equal. rewrite <- !app_assoc. reflexivity.
      * destruct g as [|x g]; [simpl in Hg1; lia|].
        exact (emitted_trans _ _ _ _ _ Em Em').
Qed.

(** A whole row, from its first byte. *)
Lemma hexDump_for_row (pc : list byte) (i0 : Z) (row post buff : list byte) (w : world) :
  0 <= i0 -> Z.rem i0 16 = 0 ->
  (1 <= List.length row <= 16)%nat ->
  List.length buff = 17%nat ->
  skipn (Z.to_nat i0) pc = (row ++ post)%list ->
  exists r' w',
    hexDump_for (List.length row) pc i0 buff w =
      Done (i0 + Z.of_nat (List.length row), map gutter_byte row ++ x00 :: r')%list w' /\
    List.length (map gutter_byte row ++ x00 :: r') = 17%nat /\
    emitted w w'
      ((if (i0 =? 0)%Z then "" else "  " ++ cstring buff ++ nl) ++ row_open i0 row)%string.
Proof.
  intros H0 Hr Hrow Hlen Hskip.
  destruct row as [|b row]; [simpl in Hrow; lia|].
  destruct buff as [|r0 [|r1 r]]; try (simpl in Hlen; lia).
  destruct (hexDump_body_spec pc i0 [] r0 r1 r w H0 Hr ltac:(simpl; lia)) as (w1 & Eb & Em).
  simpl List.length in Eb, Em. simpl Z.of_nat in Eb, Em. rewrite Z.add_0_r in Eb, Em.
  simpl app in Eb, Em.
  pose proof Hskip as Hskip'.
  change ((b :: row) ++ post)%list with (b :: (row ++ post))%list in Hskip'.
  apply skipn_head in Hskip'. destruct Hskip' as [Hpeek Hskip'].
  unfold peek in Eb, Em. rewrite Hpeek in Eb, Em.
  simpl List.length. simpl hexDump_for. unfold bind. rewrite Eb.
  destruct (hexDump_for_in_row pc i0 row [gutter_byte b] r post w1 H0 Hr) as (r' & w' & E & Hl & Em').
  - simpl. lia.
  - simpl in *. lia.
  - simpl in *. lia.
  - rewrite <- Hskip'. f_equal. simpl. lia.
  - simpl List.length in E. simpl app in E, Hl.
    replace (i0 + Z.of_nat 1) with (i0 + 1) in E by lia.
    exists r', w'. rewrite E. split; [|split].
    + first [reflexivity | (f_equal; f_equal; lia)].
    + exact Hl.
    + pose proof (emitted_trans _ _ _ _ _ Em Em') as Et.
      unfold emitted in *. rewrite Et. f_equal.
      unfold row_open. simpl hexes. rewrite !sapp_assoc. reflexivity.
Qed.

Lemma dump_rows_nil (n : nat) (off : Z) : dump_rows n off [] = "".
Proof. destruct n; reflexivity. Qed.

Lemma skipn16_nil (bs : list byte) : skipn 16 bs = [] -> firstn 16 bs = bs.
Proof.
  intros H. rewrite <- (firstn_skipn 16 bs) at 2. rewrite H, app_nil_r. reflexivity.
Qed.

Lemma skipn16_cons (bs : list byte) (x : byte) (tl : list byte) :
  skipn 16 bs = x :: tl ->
  List.length (firstn 16 bs) = 16%nat /\ (List.length bs = 16 + List.length (x :: tl))%nat.
Proof.
  intros H. pose proof (length_skipn 16 bs) as Hl. rewrite H in Hl.
  rewrite length_firstn. cbn [List.length] in *. lia.
Qed.

(** Closing the last row turns the open dump into the dump. *)
Lemma open_rows_close (n : nat) :
  forall off bs, bs <> [] -> (List.length bs <= 16 * n)%nat ->
  (open_rows n off bs ++ row_close (last_row n bs))%string = dump_rows n off bs.
Proof.
  induction n as [|n IH]; intros off bs Hne Hlen.
  - destruct bs; [contradiction|simpl in Hlen; lia].
  - destruct bs as [|b0 bs0]; [contradiction|].
    cbn [open_rows last_row dump_rows].
    remember (b0 :: bs0) as bs eqn:Ebs.
    destruct (skipn 16 bs) as [|x tl] eqn:Es.
    + rewrite dump_rows_nil, sapp_nil_r. reflexivity.
    + destruct (skipn16_cons bs x tl Es) as [_ Hl].
      rewrite sapp_assoc. f_equal. apply IH; [discriminate|]. lia.
Qed.

(** The whole loop over [bs], row after row. *)
Lemma hexDump_for_rows (pc : list byte) (n : nat) :
  forall (bs post buff : list byte) (i0 : Z) (w : world),
  bs <> [] -> (List.length bs <= 16 * n)%nat ->
  0 <= i0 -> Z.rem i0 16 = 0 ->
  List.length buff = 17%nat ->
  skipn (Z.to_nat i0) pc = (bs ++ post)%list ->
  exists i1 r' w',
    hexDump_for (List.length bs) pc i0 buff w =
      Done (i1 + Z.of_nat (List.length (last_row n bs)),
            map gutter_byte (last_row n bs) ++ x00 :: r')%list w' /\
    0 <= i1 /\ Z.rem i1 16 = 0 /\
    (1 <= List.length (last_row n bs) <= 16)%nat /\
    emitted w w'
      ((if (i0 =? 0)%Z then "" else "  " ++ cstring buff ++ nl) ++ open_rows n i0 bs)%string.
Proof.
  induction n as [|n IH]; intros bs post buff i0 w Hne Hlen H0 Hr Hbuf Hskip.
  - destruct bs; [contradiction|simpl in Hlen; lia].
  - cbn [open_rows last_row].
    destruct (skipn 16 bs) as [|x tl] eqn:Es.
    + apply skipn16_nil in Es. rewrite Es.
      assert (Hrow : (1 <= List.length bs <= 16)%nat).
      { split; [destruct bs; [contradiction|simpl; lia]|].
        rewrite <- Es. rewrite length_firstn. lia. }
      destruct (hexDump_for_row pc i0 bs post buff w H0 Hr Hrow Hbuf Hskip)
        as (r' & w' & E & _ & Em).
      exists i0, r', w'. repeat split; auto; lia.
    + destruct (skipn16_cons bs x tl Es) as [Hl16 Hl].
      rewrite <- (firstn_skipn 16 bs) in Hskip. rewrite Es, <- app_assoc in Hskip.
      assert (Hrow : (1 <= List.length (firstn 16 bs) <= 16)%nat) by lia.
      destruct (hexDump_for_row pc i0 (firstn 16 bs) ((x :: tl) ++ post) buff w
                  H0 Hr Hrow Hbuf Hskip) as (r1 & w1 & E1 & Hl1 & Em1).
      rewrite Hl, hexDump_for_split. rewrite Hl16 in E1. rewrite E1.
      cbn [fst snd].
      destruct (IH (x :: tl) post (map gutter_byte (firstn 16 bs) ++ x00 :: r1)%list
                  (i0 + Z.of_nat 16) w1) as (i1 & r' & w' & E & Hi1 & Hr1 & Hlast & Em).
      * discriminate.
      * lia.
      * lia.
      * apply rem16_next_row; assumption.
      * exact Hl1.
      * assert (Hs : skipn (Z.to_nat (i0 + Z.of_nat 16)) pc =
                     skipn 16 (skipn (Z.to_nat i0) pc)).
        { rewrite skipn_skipn. f_equal. lia. }
        rewrite Hs, Hskip. rewrite skipn_app, Hl16.
        rewrite skipn_all2 by lia. rewrite Nat.sub_diag. reflexivity.
      * exists i1, r', w'. rewrite E. repeat split; auto; try lia.
        pose proof (emitted_trans _ _ _ _ _ Em1 Em) as Et.
        unfold emitted in *. rewrite Et. f_equal.
        destruct (Z.eqb_spec (i0 + Z.of_nat 16) 0) as [Ez|_]; [lia|].
        rewrite cstring_gutter. unfold row_text, row_close.
        rewrite Hl16. simpl blanks. rewrite !sapp_assoc. reflexivity.
Qed.

(** The padding loop after a last row of [L] bytes. *)
Lemma hexDump_pad_spec (m : nat) :
  forall (rounds : nat) (i1 : Z) (L : nat) (w : world),
  0 <= i1 -> Z.rem i1 16 = 0 -> (1 <= L <= 16)%nat -> (m = 16 - L)%nat -> (m <= rounds)%nat ->
  exists i w', hexDump_pad rounds (i1 + Z.of_nat L) w = Done i w' /\ emitted w w' (blanks m).
Proof.
  induction m as [|m IH]; intros rounds i1 L w H1 Hr HL Hm Hrounds.
  - assert (L = 16%nat) by lia. subst L.
    destruct rounds; simpl; [exists (i1 + 16), w; split; [reflexivity|apply emitted_refl]|].
    rewrite (rem16_next_row i1 H1 Hr). simpl.
    exists (i1 + 16), w. split; [reflexivity|apply emitted_refl].
  - destruct rounds as [|rounds]; [lia|]. simpl hexDump_pad.
    rewrite (rem16_offset i1 (Z.of_nat L) H1 Hr) by lia.
    destruct (Z.eqb_spec (Z.of_nat L) 0) as [E|_]; [lia|].
    change (exists i w',
              hexDump_pad rounds (i1 + Z.of_nat L + 1) (log_to (mkLog Raw l_DEBUG "   ") w) =
                Done i w' /\ emitted w w' (blanks (S m))).
    replace (i1 + Z.of_nat L + 1) with (i1 + Z.of_nat (S L)) by lia.
    destruct (IH rounds i1 (S L) (log_to (mkLog Raw l_DEBUG "   ") w) H1 Hr)
      as (i & w' & E & Em); try lia.
    exists i, w'. split; [exact E|].
    exact (emitted_trans _ _ _ _ _ (emitted_log Raw l_DEBUG "   " w) Em).
Qed.

(** The text of a dump of [len > 0] bytes. *)
Lemma hexDump_text (stack : list byte) (desc : option string) (addr : list byte)
    (len : Z) (w : world) :
  0 < len <= Z.of_nat (List.length addr) ->
  List.length stack = 17%nat ->
  exists w',
    utils_hexDump stack desc addr len w = Done tt w' /\
    emitted w w'
      (header desc ++
       dump_rows (Z.to_nat len) 0 (firstn (Z.to_nat len) addr))%string.
Proof.
  intros Hlen Hstack.
  set (bs := firstn (Z.to_nat len) addr).
  assert (Hbs : List.length bs = Z.to_nat len) by (unfold bs; rewrite length_firstn; lia).
  assert (Hne : bs <> []) by (intros E; rewrite E in Hbs; simpl in Hbs; lia).
  unfold utils_hexDump.
  assert (Hhead : exists w0,
            (match desc with
             | Some d => LOGMSG_RAW l_DEBUG (d ++ ":" ++ nl)%string
             | None => ret tt
             end) w = Done tt w0 /\ emitted w w0 (header desc)).
  { destruct desc as [d|]; simpl.
    - eexists. split; [reflexivity|]. apply emitted_log.
    - eexists. split; [reflexivity|]. apply emitted_refl. }
  destruct Hhead as (w0 & Eh & Emh).
  unfold bind at 1. rewrite Eh.
  destruct (Z.eqb_spec len 0) as [E|_]; [lia|].
  destruct (Z.ltb_spec len 0) as [E|_]; [lia|].
  destruct (hexDump_for_rows addr (Z.to_nat len) bs (skipn (Z.to_nat len) addr) stack 0 w0)
    as (i1 & r' & w1 & E1 & Hi1 & Hr1 & Hlast & Em1); auto; try lia.
  { unfold bs. simpl. rewrite firstn_skipn. reflexivity. }
  rewrite Hbs in E1. unfold bind. rewrite E1. cbn [fst snd].
  destruct (hexDump_pad_spec (16 - List.length (last_row (Z.to_nat len) bs)) 16 i1
              (List.length (last_row (Z.to_nat len) bs)) w1 Hi1 Hr1 Hlast eq_refl)
    as (i & w2 & E2 & Em2); [lia|].
  rewrite E2, LOGMSG_RAW_debug. eexists. split; [reflexivity|].
  pose proof (emitted_trans _ _ _ _ _ Emh
               (emitted_trans _ _ _ _ _ Em1
                  (emitted_trans _ _ _ _ _ Em2
                     (emitted_log Raw l_DEBUG
                        ("  " ++ cstring (map gutter_byte (last_row (Z.to_nat len) bs)
                                            ++ x00 :: r')%list ++ nl)%string w2)))) as Et.
  unfold emitted in *. rewrite Et. f_equal. f_equal.
  rewrite cstring_gutter. simpl.
  rewrite <- (open_rows_close (Z.to_nat len) 0 bs Hne) by lia.
  reflexivity.
Qed.

(** *** The offset labels *)

Lemma zeros_length (n : nat) : String.length (zeros n) = n.
Proof. induction n as [|n IH]; simpl; [reflexivity|]. rewrite IH. reflexivity. Qed.

Lemma fmt_0x_min_width (width : nat) (z : Z) : (width <= String.length (fmt_0x width z))%nat.
Proof. unfold fmt_0x. rewrite slength_app, zeros_length. lia. Qed.

Lemma all_from_spec (P : Z -> bool) (n : nat) :
  forall z, all_from n z P = true -> forall k, z <= k < z + Z.of_nat n -> P k = true.
Proof.
  induction n as [|n IH]; intros z H k Hk; [lia|].
  simpl in H. apply andb_true_iff in H. destruct H as [Hz Hrest].
  destruct (Z.eq_dec k z) as [->|Hne]; [exact Hz|].
  apply (IH (z + 1) Hrest). lia.
Qed.

Lemma fmt_0x_4_width (off : Z) :
  0 <= off < 65536 -> String.length (fmt_0x 4 off) = 4%nat.
Proof.
  intros H.
  assert (Hall : all_from (Z.to_nat 65536) 0
                   (fun z => Nat.eqb (String.length (fmt_0x 4 z)) 4) = true)
    by (vm_compute; reflexivity).
  apply Nat.eqb_eq.
  apply (all_from_spec _ _ _ Hall off). lia.
Qed.

(** The digits of [%x]: a number printed with [n] hexadecimal digits is
    below [16 ^ n]. *)
Lemma of_lu_bound (d : Hexadecimal.uint) :
  (HexadecimalPos.Unsigned.of_lu d < 16 ^ N.of_nat (Hexadecimal.nb_digits d))%N.
Proof.
  induction d; cbn [Hexadecimal.nb_digits];
    rewrite ?Nat2N.inj_succ, ?N.pow_succ_r';
    cbn [HexadecimalPos.Unsigned.of_lu]; [simpl|..]; lia.
Qed.

Lemma nb_digits_rev (d : Hexadecimal.uint) :
  Hexadecimal.nb_digits (Hexadecimal.rev d) = Hexadecimal.nb_digits d.
Proof.
  rewrite !HexadecimalFacts.nb_digits_spec, HexadecimalFacts.rev_spec.
  apply length_rev.
Qed.

Lemma string_of_uint_length (d : Hexadecimal.uint) :
  String.length (HexadecimalString.NilEmpty.string_of_uint d) = Hexadecimal.nb_digits d.
Proof. induction d; simpl; congruence. Qed.

Lemma string_of_uint_digits (d : Hexadecimal.uint) :
  (Hexadecimal.nb_digits d <=
   String.length (HexadecimalString.NilZero.string_of_uint d))%nat.
Proof.
  destruct d; try (simpl; lia);
    unfold HexadecimalString.NilZero.string_of_uint;
    rewrite string_of_uint_length; lia.
Qed.

Lemma fmt_x_value (z : Z) :
  0 <= z -> z < 16 ^ Z.of_nat (String.length (fmt_x z)).
Proof.
  intros Hz. unfold fmt_x.
  set (d := N.to_hex_uint (Z.to_N z)).
  assert (Hv : Z.to_N z = HexadecimalPos.Unsigned.of_lu (Hexadecimal.rev d)).
  { rewrite <- HexadecimalPos.Unsigned.of_uint_alt.
    symmetry. apply (HexadecimalN.Unsigned.of_to (Z.to_N z)). }
  pose proof (of_lu_bound (Hexadecimal.rev d)) as Hb.
  rewrite nb_digits_rev, <- Hv in Hb.
  pose proof (string_of_uint_digits d) as Hl.
  apply N2Z.inj_lt in Hb.
  rewrite Z2N.id, N2Z.inj_pow, nat_N_Z in Hb by lia.
  eapply Z.lt_le_trans; [exact Hb|].
  apply Z.pow_le_mono_r; lia.
Qed.

(** From 0x10000 on, [%04x] prints more than four digits. *)
Lemma fmt_0x_4_wide (off : Z) :
  65536 <= off -> (4 < String.length (fmt_0x 4 off))%nat.
Proof.
  intros Hoff.
  assert (Hx : (4 < String.length (fmt_x off))%nat).
  { pose proof (fmt_x_value off ltac:(lia)) as Hb.
    destruct (Nat.lt_ge_cases 4 (String.length (fmt_x off))) as [|Hle]; [assumption|].
    exfalso.
    assert (16 ^ Z.of_nat (String.length (fmt_x off)) <= 16 ^ 4)
      by (apply Z.pow_le_mono_r; lia).
    change (16 ^ 4) with 65536 in *. lia. }
  unfold fmt_0x. cbv zeta. rewrite slength_app, zeros_length. lia.
Qed.

(** *** The log records of a dump *)

Lemma hexDump_body_keeps (pc : list byte) (i : Z) (buff buff' : list byte) (w w' : world)
    (r : log_record) :
  hexDump_body pc i buff w = Done buff' w' -> In r (logs w) -> In r (logs w').
Proof.
  unfold hexDump_body, bind, ret, LOGMSG_RAW, log_msg. intros H Hin.
  destruct (Z.rem i 16 =? 0); [destruct (negb (i =? 0))|];
    injection H as _ <-; cbn [logs set_logs]; simpl; auto.
Qed.

Lemma hexDump_body_label (pc : list byte) (i : Z) (buff buff' : list byte) (w w' : world) :
  Z.rem i 16 = 0 -> hexDump_body pc i buff w = Done buff' w' -> In (row_label i) (logs w').
Proof.
  unfold hexDump_body, bind, ret, LOGMSG_RAW, log_msg, row_label. intros Hr H.
  rewrite Hr in H. simpl in H.
  destruct (negb (i =? 0)); injection H as _ <-; cbn [logs set_logs]; simpl; auto.
Qed.

Lemma hexDump_for_keeps (pc : list byte) (n : nat) (r : log_record) :
  forall i buff w res w',
  hexDump_for n pc i buff w = Done res w' -> In r (logs w) -> In r (logs w').
Proof.
  induction n as [|n IH]; intros i buff w res w' H Hin; simpl in H.
  - injection H as _ <-. exact Hin.
  - unfold bind in H. destruct (hexDump_body pc i buff w) as [b w1|w1] eqn:Eb; [|discriminate].
    apply (IH _ _ _ _ _ H). apply (hexDump_body_keeps _ _ _ _ _ _ _ Eb Hin).
Qed.

Lemma hexDump_for_label (pc : list byte) (n : nat) :
  forall i buff w res w' k,
  hexDump_for n pc i buff w = Done res w' ->
  i <= k < i + Z.of_nat n -> Z.rem k 16 = 0 -> In (row_label k) (logs w').
Proof.
  induction n as [|n IH]; intros i buff w res w' k H Hk Hr; [lia|].
  simpl in H. unfold bind in H.
  destruct (hexDump_body pc i buff w) as [b w1|w1] eqn:Eb; [|discriminate].
  destruct (Z.eq_dec k i) as [->|Hne].
  - apply (hexDump_for_keeps _ _ _ _ _ _ _ _ H). apply (hexDump_body_label _ _ _ _ _ _ Hr Eb).
  - apply (IH _ _ _ _ _ k H); [lia|exact Hr].
Qed.

Lemma hexDump_pad_keeps (rounds : nat) (r : log_record) :
  forall i w i' w', hexDump_pad rounds i w = Done i' w' -> In r (logs w) -> In r (logs w').
Proof.
  induction rounds as [|rounds IH]; intros i w i' w' H Hin; simpl in H.
  - injection H as _ <-. exact Hin.
  - destruct (negb (Z.rem i 16 =? 0)).
    + unfold bind, LOGMSG_RAW, log_msg in H. apply (IH _ _ _ _ H). simpl. auto.
    + injection H as _ <-. exact Hin.
Qed.

(** Every row of a dump has its [LOGMSG_RAW("  %04x ", i)] record. *)
Lemma hexDump_row_label (stack : list byte) (desc : option string) (addr : list byte)
    (len k : Z) (w w' : world) :
  utils_hexDump stack desc addr len w = Done tt w' ->
  0 <= k < len -> Z.rem k 16 = 0 -> In (row_label k) (logs w').
Proof.
  intros H Hk Hr. unfold utils_hexDump in H. unfold bind at 1 in H.
  destruct ((match desc with
             | Some d => LOGMSG_RAW l_DEBUG (d ++ ":" ++ nl)%string
             | None => ret tt
             end) w) as [[] w0|w0]; [|discriminate].
  destruct (Z.eqb_spec len 0) as [E|_]; [lia|].
  destruct (Z.ltb_spec len 0) as [E|_]; [lia|].
  unfold bind in H.
  destruct (hexDump_for (Z.to_nat len) addr 0 stack w0) as [res w1|w1] eqn:Ef; [|discriminate].
  destruct (hexDump_pad 16 (fst res) w1) as [i2 w2|w2] eqn:Ep; [|discriminate].
  unfold LOGMSG_RAW, log_msg in H. injection H as <-. cbn [logs set_logs]. right.
  apply (hexDump_pad_keeps _ _ _ _ _ _ Ep).
  apply (hexDump_for_label _ _ _ _ _ _ _ k Ef); [lia|exact Hr].
Qed.

(** C7, as the code has it.  With length 0 the dump is the zero-length
    notice and nothing else; with a negative length it is the
    negative-length notice, and the call does the same whatever the input
    buffer holds.  With a positive length the dump is one row per 16
    bytes: the offset of the row's first byte in lower-case hexadecimal,
    padded with zeros to four digits, the bytes in hexadecimal, and the
    bytes as text with [.] for every byte below 0x20 or above 0x7e.  The
    offset takes exactly four digits below 0x10000 and more than four from
    0x10000 on. *)
Theorem hexDump_output (stack : list byte) (desc : option string) (addr : list byte)
    (len : Z) (w : world) :
  List.length stack = 17%nat ->
  (len = 0 ->
   exists w', utils_hexDump stack desc addr len w = Done tt w' /\
              emitted w w' (header desc ++ "  ZERO LENGTH" ++ nl)) /\
  (len < 0 ->
   (exists w', utils_hexDump stack desc addr len w = Done tt w' /\
               emitted w w' (header desc ++ "  NEGATIVE LENGTH: " ++ fmt_d len ++ nl)) /\
   (forall addr', utils_hexDump stack desc addr' len w = utils_hexDump stack desc addr len w)) /\
  (0 < len <= Z.of_nat (List.length addr) ->
   exists w', utils_hexDump stack desc addr len w = Done tt w' /\
              emitted w w'
                (header desc ++ dump_rows (Z.to_nat len) 0 (firstn (Z.to_nat len) addr))) /\
  (forall off, 0 <= off ->
     (4 <= String.length (fmt_0x 4 off))%nat /\
     (off < 65536 -> String.length (fmt_0x 4 off) = 4%nat) /\
     (65536 <= off -> (4 < String.length (fmt_0x 4 off))%nat)).
Proof.
  intros Hstack.
  assert (Hhead : exists w0,
            (match desc with
             | Some d => LOGMSG_RAW l_DEBUG (d ++ ":" ++ nl)%string
             | None => ret tt
             end) w = Done tt w0 /\ emitted w w0 (header desc)).
  { destruct desc as [d|]; simpl.
    - eexists. split; [reflexivity|]. apply emitted_log.
    - eexists. split; [reflexivity|]. apply emitted_refl. }
  destruct Hhead as (w0 & Eh & Emh).
  split; [|split; [|split]].
  - intros ->. unfold utils_hexDump. unfold bind. rewrite Eh. simpl.
    eexists. split; [reflexivity|].
    exact (emitted_trans _ _ _ _ _ Emh (emitted_log Raw l_DEBUG _ w0)).
  - intros Hneg. split.
    + unfold utils_hexDump. unfold bind. rewrite Eh.
      destruct (Z.eqb_spec len 0) as [E|_]; [lia|].
      destruct (Z.ltb_spec len 0) as [_|E]; [|lia].
      eexists. split; [reflexivity|].
      exact (emitted_trans _ _ _ _ _ Emh (emitted_log Raw l_DEBUG _ w0)).
    + intros addr'. unfold utils_hexDump. unfold bind.
      destruct (Z.eqb_spec len 0) as [E|_]; [lia|].
      destruct (Z.ltb_spec len 0) as [_|E]; [|lia]. reflexivity.
  - intros Hlen. apply hexDump_text; assumption.
  - intros off Hoff. split; [apply fmt_0x_min_width|]. split.
    + intros Hlt. apply fmt_0x_4_width. lia.
    + apply fmt_0x_4_wide.
Qed.

Lemma hexDump_output_witness :
  List.length stack_garbage = 17%nat /\
  0 < 20 <= Z.of_nat (List.length twenty_bytes) /\
  exists w',
    utils_hexDump stack_garbage (Some "boot") twenty_bytes 20 (quiet []) = Done tt w' /\
    emitted (quiet []) w'
      (header (Some "boot") ++ dump_rows (Z.to_nat 20) 0 (firstn (Z.to_nat 20) twenty_bytes)).
Proof.
  split; [reflexivity|]. split; [simpl; lia|].
  apply (proj1 (proj2 (proj2
           (hexDump_output stack_garbage (Some "boot") twenty_bytes 20 (quiet []) eq_refl)))).
  simpl. lia.
Defined.

(** The dump of twenty bytes: two rows, labelled [0000] and [0010]. *)
Example hexDump_twenty_bytes :
  match utils_hexDump stack_garbage (Some "boot") twenty_bytes 20 (quiet []) with
  | Done _ w' =>
      log_text (logs w') =
      ("boot:" ++ nl ++
       "  0000  00 1f 20 41 42 43 44 45 46 47 48 49 4a 4b 4c 4d  .. ABCDEFGHIJKLM" ++ nl ++
       "  0010  7e 7f ff 30" ++ blanks 12 ++ "  ~..0" ++ nl)%string
  | Exit _ => False
  end.
Proof. vm_compute. reflexivity. Qed.

(** C7, as the specification has it, fails for the rows past 64 KiB: the
    row that starts at byte 65536 of a 65537-byte dump is labelled
    [10000], five digits. *)
Lemma offset_label_past_four_digits :
  exists w',
    utils_hexDump stack_garbage None big_buffer 65537 (quiet []) = Done tt w' /\
    In (mkLog Raw l_DEBUG "  10000 ") (logs w') /\
    String.length "10000" = 5%nat.
Proof.
  destruct (hexDump_text stack_garbage None big_buffer 65537 (quiet [])) as (w' & E & _).
  - unfold big_buffer. rewrite repeat_length, Z2Nat.id; lia.
  - reflexivity.
  - exists w'. split; [exact E|]. split; [|reflexivity].
    assert (Hl : row_label 65536 = mkLog Raw l_DEBUG "  10000 ") by (vm_compute; reflexivity).
    rewrite <- Hl.
    apply (hexDump_row_label _ _ _ _ 65536 _ _ E); [lia|reflexivity].
Qed.

(* ================================================================== *)
(** * Part III. Further properties of the source                       *)
(* ================================================================== *)

(** ** The walk, when memory does not run out *)

Lemma store_firstn_pad (m cnt : nat) (v : slot) :
  forall cells, (1 <= m)%nat -> (cnt <= List.length cells)%nat ->
  store cnt v (firstn (cnt + 1) (cells ++ repeat None m)) = (firstn cnt cells ++ [v])%list.
Proof.
  induction cnt as [|cnt IH]; intros cells Hm H.
  - destruct cells as [|c cells]; [|reflexivity].
    destruct m; [lia|reflexivity].
  - destruct cells as [|c cells]; [simpl in H; lia|].
    simpl in H. simpl. f_equal. apply IH; lia.
Qed.

Lemma store_resize (cnt : nat) (v : slot) (cells : list slot) :
  (cnt <= List.length cells)%nat ->
  store cnt v (resize (cnt + 1) cells) = (firstn cnt cells ++ [v])%list.
Proof. intros H. unfold resize. apply store_firstn_pad; [lia|exact H]. Qed.

(** One append with memory at hand. *)
Lemma file_step_appends (path : string) (st : stat_t)
    (continue : infiles_t -> M (bool * infiles_t)) (pf : infiles_t) (w : world)
    (p q : ptr) (h : list ptr) :
  appended st = true ->
  heap w = p :: q :: h -> p <> NULL -> q <> NULL ->
  exists pf1 w1,
    file_step path st continue pf w = continue pf1 w1 /\
    heap w1 = h /\
    dir_open w1 = dir_open w /\
    inputFile pf1 = inputFile pf /\
    fileCnt pf1 = (fileCnt pf + 1)%nat /\
    snd (files pf1) = store (fileCnt pf) (Some path) (resize (fileCnt pf + 1) (snd (files pf))).
Proof.
  intros Happ Hh Hp Hq. unfold appended in Happ. apply andb_true_iff in Happ.
  destruct Happ as [Hreg Hsz].
  unfold file_step, realloc_files, strdup. rewrite Hreg. simpl.
  destruct (st_size st =? 0); [discriminate Hsz|].
  run. rewrite Hh. simpl.
  destruct (Z.eqb_spec p NULL) as [E|_]; [contradiction|]. simpl.
  destruct (Z.eqb_spec p NULL) as [E|_]; [contradiction|]. simpl.
  destruct (Z.eqb_spec q NULL) as [E|_]; [contradiction|]. simpl.
  do 2 eexists. split; [reflexivity|]. repeat split.
Qed.

Lemma file_step_passes (path : string) (st : stat_t)
    (continue : infiles_t -> M (bool * infiles_t)) (pf : infiles_t) (w : world) :
  appended st = false ->
  exists w1,
    file_step path st continue pf w = continue pf w1 /\
    heap w1 = heap w /\ dir_open w1 = dir_open w.
Proof.
  intros H. destruct (file_step_skip path st continue pf w H) as (text & E).
  eexists. split; [exact E|]. split; reflexivity.
Qed.

Lemma memory_for_skipn (n m : nat) (w w1 : world) :
  memory_for (n + m) w -> heap w1 = skipn n (heap w) -> memory_for m w1.
Proof.
  intros [Hlen Hall] Hh. unfold memory_for. rewrite Hh. split.
  - rewrite length_skipn. lia.
  - rewrite <- (firstn_skipn n (heap w)) in Hall. apply Forall_app in Hall. tauto.
Qed.

Lemma memory_for_le (n m : nat) (w : world) :
  (m <= n)%nat -> memory_for n w -> memory_for m w.
Proof. intros H [Hlen Hall]. split; [lia|exact Hall]. Qed.

Lemma memory_for_two (n : nat) (w : world) :
  memory_for (2 + n) w ->
  exists p q h, heap w = p :: q :: h /\ p <> NULL /\ q <> NULL.
Proof.
  intros [Hlen Hall]. destruct (heap w) as [|p [|q h]]; simpl in Hlen; try lia.
  exists p, q, h. split; [reflexivity|].
  inversion Hall as [|? ? Hp Hall']. inversion Hall' as [|? ? Hq _]. tauto.
Qed.


Lemma S_ISDIR_not_appended (st : stat_t) :
  S_ISDIR (st_mode st) = true -> appended st = false.
Proof.
  intros H. unfold appended. destruct (S_ISREG (st_mode st)) eqn:E; [|reflexivity].
  apply S_ISREG_not_S_ISDIR in E. congruence.
Qed.

Lemma collected_nothing (pf : infiles_t) (w w1 : world) (ok : bool) (delta : Z) :
  (fileCnt pf <= List.length (snd (files pf)))%nat ->
  heap w1 = heap w ->
  dir_open w1 = dir_open w + delta ->
  collected pf w ok [] delta (ok, pf) w1.
Proof.
  intros H Hh Hd. unfold collected. simpl. rewrite Nat.add_0_r, app_nil_r.
  repeat split; auto.
Qed.

Lemma collected_trans (pf : infiles_t) (w : world) (ok1 ok2 : bool) (l1 l2 : list string)
    (d1 d2 d : Z) (r1 r2 : bool * infiles_t) (w1 w1' w2 : world) :
  collected pf w ok1 l1 d1 r1 w1 ->
  heap w1' = heap w1 -> dir_open w1' = dir_open w1 ->
  collected (snd r1) w1' ok2 l2 d2 r2 w2 ->
  d = d1 + d2 ->
  collected pf w ok2 (l1 ++ l2) d r2 w2.
Proof.
  intros (_ & Hi1 & Hc1 & Hl1 & He1 & Hh1 & Hd1) Hh Hd
         (Hf2 & Hi2 & Hc2 & Hl2 & He2 & Hh2 & Hd2) ->.
  unfold collected. rewrite length_app, map_app.
  split; [exact Hf2|]. split; [congruence|]. split; [lia|]. split; [exact Hl2|].
  split; [|split].
  - rewrite He2, He1, app_assoc. reflexivity.
  - rewrite Hh2, Hh, Hh1, skipn_skipn. f_equal. lia.
  - lia.
Qed.

Lemma collected_one (path : string) (pf pf1 : infiles_t) (w w1 : world) (ok : bool)
    (p q : ptr) (h : list ptr) :
  (fileCnt pf <= List.length (snd (files pf)))%nat ->
  heap w = p :: q :: h -> heap w1 = h -> dir_open w1 = dir_open w ->
  inputFile pf1 = inputFile pf ->
  fileCnt pf1 = (fileCnt pf + 1)%nat ->
  snd (files pf1) = store (fileCnt pf) (Some path) (resize (fileCnt pf + 1) (snd (files pf))) ->
  collected pf w ok [path] 0 (ok, pf1) w1.
Proof.
  intros Hle Hh Hh1 Hd Hi Hc Hs. unfold collected, entries. simpl.
  rewrite Hs, Hc, store_resize by exact Hle. unfold slot in *.
  assert (Hlen : List.length (firstn (fileCnt pf) (snd (files pf)) ++ [Some path]) =
                 (fileCnt pf + 1)%nat).
  { rewrite length_app, length_firstn. simpl.
    rewrite Nat.min_l by exact Hle. reflexivity. }
  unfold slot in *.
  split; [reflexivity|]. split; [exact Hi|]. split; [reflexivity|].
  split; [rewrite Hlen; apply Nat.le_refl|].
  split; [|split].
  - apply firstn_all2. rewrite Hlen. apply Nat.le_refl.
  - rewrite Hh1, Hh. reflexivity.
  - lia.
Qed.

Lemma memory_for_same_heap (n : nat) (w w1 : world) :
  heap w1 = heap w -> memory_for n w -> memory_for n w1.
Proof. unfold memory_for. intros ->. tauto. Qed.

Lemma file_step_collects (path : string) (st : stat_t)
    (continue : infiles_t -> M (bool * infiles_t)) (ok : bool) (rest : list string)
    (delta : Z) :
  (forall pf w,
     (fileCnt pf <= List.length (snd (files pf)))%nat ->
     memory_for (2 * List.length rest) w ->
     exists r w', continue pf w = Done r w' /\ collected pf w ok rest delta r w') ->
  forall pf w,
    (fileCnt pf <= List.length (snd (files pf)))%nat ->
    memory_for (2 * List.length ((if appended st then [path] else []) ++ rest)) w ->
    exists r w',
      file_step path st continue pf w = Done r w' /\
      collected pf w ok ((if appended st then [path] else []) ++ rest) delta r w'.
Proof.
  intros Hk pf w Hle Hmem. destruct (appended st) eqn:Happ.
  - simpl in Hmem.
    replace (S (List.length rest + S (List.length rest + 0)))
      with (2 + 2 * List.length rest)%nat in Hmem by lia.
    destruct (memory_for_two _ _ Hmem) as (p & q & h & Hh & Hp & Hq).
    destruct (file_step_appends path st continue pf w p q h Happ Hh Hp Hq)
      as (pf1 & w1 & E & Hh1 & Hd1 & Hi & Hc & Hs).
    pose proof (collected_one path pf pf1 w w1 ok p q h Hle Hh Hh1 Hd1 Hi Hc Hs) as Hone.
    destruct (Hk pf1 w1) as (r & w' & Er & Hr).
    + destruct Hone as (_ & _ & _ & Hl & _). exact Hl.
    + apply (memory_for_skipn 2 _ w). exact Hmem. rewrite Hh1, Hh. reflexivity.
    + exists r, w'. rewrite E. split; [exact Er|].
      apply (collected_trans _ _ _ _ _ _ _ _ _ _ _ _ _ _ Hone eq_refl eq_refl Hr). lia.
  - destruct (file_step_passes path st continue pf w Happ) as (w1 & E & Hh1 & Hd1).
    destruct (Hk pf w1 Hle) as (r & w' & Er & Hr).
    + apply (memory_for_same_heap _ w); assumption.
    + exists r, w'. rewrite E. split; [exact Er|].
      apply (collected_trans _ _ _ _ _ _ 0 delta _ _ _ _ _ _
               (collected_nothing pf w w ok 0 Hle eq_refl ltac:(lia)) Hh1 Hd1 Hr). lia.
Qed.

Lemma walk_collects :
  (forall d basePath pf w,
     (fileCnt pf <= List.length (snd (files pf)))%nat ->
     memory_for (2 * List.length (walk_paths d basePath)) w ->
     exists r w',
       utils_readdir d basePath pf w = Done r w' /\
       collected pf w (walk_ok d) (walk_paths d basePath) (walk_left_open d) r w') /\
  (forall s basePath pf w,
     (fileCnt pf <= List.length (snd (files pf)))%nat ->
     memory_for (2 * List.length (loop_paths s basePath)) w ->
     exists r w',
       readdir_loop s basePath pf w = Done r w' /\
       collected pf w (loop_ok s) (loop_paths s basePath) (loop_left_open s - 1) r w').
Proof.
  apply dir_dirstream_ind.
  - intros basePath pf w Hle _. simpl. run. do 2 eexists. split; [reflexivity|].
    apply collected_nothing; [exact Hle|reflexivity|simpl; lia].
  - intros s IH basePath pf w Hle Hmem. simpl. run.
    destruct (IH basePath pf (set_dir_open (dir_open w + 1) w) Hle
                (memory_for_same_heap _ w _ eq_refl Hmem)) as (r & w' & E & Hc).
    exists r, w'. split; [exact E|].
    destruct Hc as (H1 & H2 & H3 & H4 & H5 & H6 & H7).
    repeat split; auto. simpl in H7. lia.
  - intros basePath pf w Hle _. simpl. run. do 2 eexists. split; [reflexivity|].
    apply collected_nothing; [exact Hle|reflexivity|simpl; lia].
  - intros errno rest IH basePath pf w Hle Hmem. simpl in *.
    destruct (errno =? EINTR); [apply IH; assumption|].
    destruct (errno =? 0); simpl; run; do 2 eexists; (split; [reflexivity|]);
      apply collected_nothing; auto; simpl; lia.
  - intros d_name st sub IHsub rest IHrest basePath pf w Hle Hmem.
    cbn [loop_paths loop_ok loop_left_open readdir_loop] in *.
    destruct (is_dot d_name); [apply IHrest; assumption|].
    destruct st as [st|].
    2:{ run.
        destruct (IHrest basePath pf
                    (log_to (mkLog Plain l_WARN
                       ("Couldn't stat() the '" ++ join_path basePath d_name ++ "' file")) w)
                    Hle (memory_for_same_heap _ w _ eq_refl Hmem)) as (r & w' & E & Hc).
        exists r, w'. split; [exact E|exact Hc]. }
    assert (Hk : forall pf0 w0,
              (fileCnt pf0 <= List.length (snd (files pf0)))%nat ->
              memory_for (2 * List.length (loop_paths rest basePath)) w0 ->
              exists r w',
                readdir_loop rest basePath pf0 w0 = Done r w' /\
                collected pf0 w0 (loop_ok rest) (loop_paths rest basePath)
                  (loop_left_open rest - 1) r w')
      by (intros; apply IHrest; assumption).
    destruct (S_ISDIR (st_mode st)) eqn:Hdir.
    + rewrite (S_ISDIR_not_appended st Hdir) in *. simpl app in Hmem |- *.
      rewrite length_app in Hmem.
      destruct (IHsub (join_path basePath d_name) pf w Hle) as (r1 & w1 & E1 & Hc1).
      { eapply memory_for_le; [|exact Hmem]. lia. }
      unfold bind at 1. rewrite E1.
      assert (Hmem1 : memory_for (2 * List.length (loop_paths rest basePath)) w1).
      { destruct Hc1 as (_ & _ & _ & _ & _ & Hh1 & _).
        apply (memory_for_skipn (2 * List.length (walk_paths sub (join_path basePath d_name)))
                 _ w); [|exact Hh1].
        replace (2 * List.length (walk_paths sub (join_path basePath d_name)) +
                 2 * List.length (loop_paths rest basePath))%nat
          with (2 * (List.length (walk_paths sub (join_path basePath d_name)) +
                     List.length (loop_paths rest basePath)))%nat by lia.
        exact Hmem. }
      assert (Hle1 : (fileCnt (snd r1) <= List.length (snd (files (snd r1))))%nat)
        by (destruct Hc1 as (_ & _ & _ & Hl & _); exact Hl).
      destruct (negb (fst r1)).
      * run.
        destruct (IHrest basePath (snd r1)
                    (log_to (mkLog Plain l_ERROR
                       ("Failed to process '" ++ join_path basePath d_name ++ "' directory")) w1)
                    Hle1 (memory_for_same_heap _ w1 _ eq_refl Hmem1)) as (r & w' & E & Hc).
        exists r, w'. split; [exact E|].
        apply (collected_trans _ _ _ _ _ _ _ _ _ _ _ _ _ _ Hc1 eq_refl eq_refl Hc). lia.
      * destruct (file_step_collects (join_path basePath d_name) st
                    (readdir_loop rest basePath) (loop_ok rest) (loop_paths rest basePath)
                    (loop_left_open rest - 1) Hk (snd r1) w1 Hle1) as (r & w' & E & Hc).
        { rewrite (S_ISDIR_not_appended st Hdir). exact Hmem1. }
        rewrite (S_ISDIR_not_appended st Hdir) in Hc. simpl app in Hc.
        exists r, w'. split; [exact E|].
        apply (collected_trans _ _ _ _ _ _ _ _ _ _ _ _ _ _ Hc1 eq_refl eq_refl Hc). lia.
    + simpl app in Hmem |- *.
      replace (0 + loop_left_open rest - 1) with (loop_left_open rest - 1) by lia.
      apply (file_step_collects (join_path basePath d_name) st
               (readdir_loop rest basePath) (loop_ok rest) (loop_paths rest basePath)
               (loop_left_open rest - 1) Hk pf w Hle Hmem).
Qed.

Lemma readdir_entries (d : dir) (basePath : string)
    (pFiles : infiles_t) (w : world) :
  (fileCnt pFiles <= List.length (snd (files pFiles)))%nat ->
  memory_for (2 * List.length (walk_paths d basePath)) w ->
  exists r w',
    utils_readdir d basePath pFiles w = Done r w' /\
    entries (snd r) = (entries pFiles ++ map Some (walk_paths d basePath))%list.
Proof.
  intros Hle Hmem.
  destruct (proj1 walk_collects d basePath pFiles w Hle Hmem)
    as (r & w' & E & _ & _ & _ & _ & He & _).
  exists r, w'. split; assumption.
Qed.

(** X1. With memory at hand for every append, [utils_readdir] appends to
    the file set exactly the regular files with [st_size] other than 0
    that it meets, in the order of the directory stream and with every
    subdirectory's files before the entries that follow it; it skips [.]
    and [..], entries it cannot stat and directories it cannot open; and
    it returns [false] exactly when the directory cannot be opened or its
    own stream fails.  What was in the file set before stays in front. *)
Theorem readdir_collects_in_order (d : dir) (basePath : string) (pFiles : infiles_t)
    (w : world) :
  (fileCnt pFiles <= List.length (snd (files pFiles)))%nat ->
  memory_for (2 * List.length (walk_paths d basePath)) w ->
  exists pFiles' w',
    utils_readdir d basePath pFiles w = Done (walk_ok d, pFiles') w' /\
    fileCnt pFiles' = (fileCnt pFiles + List.length (walk_paths d basePath))%nat /\
    entries pFiles' = (entries pFiles ++ map Some (walk_paths d basePath))%list.
Proof.
  intros Hle Hmem.
  destruct (proj1 walk_collects d basePath pFiles w Hle Hmem)
    as ([ok pf'] & w' & E & Hok & _ & Hc & _ & He & _).
  simpl in *. subst ok. exists pf', w'. split; [exact E|]. split; assumption.
Qed.

Lemma readdir_collects_in_order_witness :
  exists pFiles' w',
    utils_readdir three_file_dir "/img/three" (empty_set "/img/three") ample =
      Done (walk_ok three_file_dir, pFiles') w' /\
    fileCnt pFiles' =
      (fileCnt (empty_set "/img/three") +
       List.length (walk_paths three_file_dir "/img/three"))%nat /\
    entries pFiles' =
      (entries (empty_set "/img/three") ++
       map Some (walk_paths three_file_dir "/img/three"))%list.
Proof.
  apply (readdir_collects_in_order three_file_dir "/img/three" (empty_set "/img/three") ample).
  - simpl. lia.
  - split; [vm_compute; lia|]. unfold ample, quiet. simpl.
    repeat constructor; unfold NULL; lia.
Defined.

(** The order is the traversal order: the subdirectory's file comes
    between its two siblings. *)
Example walk_paths_three :
  walk_paths three_file_dir "/img/three" =
  ["/img/three/a.img"; "/img/three/sub/b.img"; "/img/three/c.img"].
Proof. vm_compute. reflexivity. Qed.

(** X2. With memory at hand, every [readdir] error the walk runs into
    leaves one directory stream open (the early [return false] has no
    [closedir]); nothing else does. *)
Theorem readdir_leaves_streams_open (d : dir) (basePath : string) (pFiles : infiles_t)
    (w : world) :
  (fileCnt pFiles <= List.length (snd (files pFiles)))%nat ->
  memory_for (2 * List.length (walk_paths d basePath)) w ->
  exists r w',
    utils_readdir d basePath pFiles w = Done r w' /\
    dir_open w' = dir_open w + walk_left_open d.
Proof.
  intros Hle Hmem.
  destruct (proj1 walk_collects d basePath pFiles w Hle Hmem)
    as (r & w' & E & _ & _ & _ & _ & _ & _ & Hd).
  exists r, w'. split; assumption.
Qed.

Lemma readdir_leaves_streams_open_witness :
  walk_left_open faulty_dir = 1 /\
  exists r w',
    utils_readdir faulty_dir "/img" (empty_set "/img") ample = Done r w' /\
    dir_open w' = dir_open ample + walk_left_open faulty_dir.
Proof.
  split; [reflexivity|].
  apply (readdir_leaves_streams_open faulty_dir "/img" (empty_set "/img") ample).
  - simpl. lia.
  - split; [vm_compute; lia|]. unfold ample, quiet. simpl.
    repeat constructor; unfold NULL; lia.
Defined.

Lemma file_step_closes (path : string) (st : stat_t)
    (continue : infiles_t -> M (bool * infiles_t)) :
  (forall pf w r w', continue pf w = Done r w' -> dir_open w' = dir_open w - 1) ->
  forall pf w r w', file_step path st continue pf w = Done r w' ->
                    dir_open w' = dir_open w - 1.
Proof.
  intros Hk pf w r w' H. unfold file_step, realloc_files, strdup in H.
  destruct (S_ISREG (st_mode st)); simpl in H; [|run; exact (Hk _ _ _ _ H)].
  destruct (st_size st =? 0); [run; exact (Hk _ _ _ _ H)|].
  run.
  destruct (heap w) as [|p h]; simpl in H.
  - injection H as _ <-. reflexivity.
  - destruct (p =? NULL) eqn:Ep; simpl in H; rewrite ?Ep in H; simpl in H.
    + injection H as _ <-. reflexivity.
    + destruct h as [|q h]; simpl in H.
      * injection H as _ <-. reflexivity.
      * destruct (q =? NULL); simpl in H.
        -- injection H as _ <-. reflexivity.
        -- exact (Hk _ _ _ _ H).
Qed.

Lemma walk_closes :
  (forall d, dir_reads_ok d = true ->
     forall basePath pf w r w', utils_readdir d basePath pf w = Done r w' ->
     dir_open w' = dir_open w) /\
  (forall s, stream_reads_ok s = true ->
     forall basePath pf w r w', readdir_loop s basePath pf w = Done r w' ->
     dir_open w' = dir_open w - 1).
Proof.
  apply dir_dirstream_ind.
  - intros _ basePath pf w r w' H. simpl in H. run. injection H as _ <-. reflexivity.
  - intros s IH Hok basePath pf w r w' H. simpl in H. run.
    apply (IH Hok) in H. simpl in H. lia.
  - intros _ basePath pf w r w' H. simpl in H. run. injection H as _ <-. reflexivity.
  - intros errno rest IH Hok basePath pf w r w' H. simpl in H, Hok.
    apply andb_true_iff in Hok. destruct Hok as [He Hok].
    destruct (errno =? EINTR); [exact (IH Hok _ _ _ _ _ H)|].
    simpl in He. rewrite He in H. simpl in H. run. injection H as _ <-. reflexivity.
  - intros d_name st sub IHsub rest IHrest Hok basePath pf w r w' H.
    simpl in Hok. apply andb_true_iff in Hok. destruct Hok as [Hoksub Hokrest].
    simpl in H.
    destruct (is_dot d_name); [exact (IHrest Hokrest _ _ _ _ _ H)|].
    destruct st as [st|]; [|run; exact (IHrest Hokrest _ _ _ _ _ H)].
    assert (Hk : forall pf0 w0 r0 w0',
              readdir_loop rest basePath pf0 w0 = Done r0 w0' ->
              dir_open w0' = dir_open w0 - 1)
      by (intros; eapply IHrest; eassumption).
    destruct (S_ISDIR (st_mode st)).
    + unfold bind at 1 in H.
      destruct (utils_readdir sub (join_path basePath d_name) pf w) as [r1 w1|w1] eqn:Es;
        [|discriminate].
      pose proof (IHsub Hoksub _ _ _ _ _ Es) as Hsub.
      destruct (negb (fst r1)).
      * run. apply Hk in H. simpl in H. lia.
      * apply (file_step_closes _ _ _ Hk) in H. lia.
    + exact (file_step_closes _ _ _ Hk _ _ _ _ H).
Qed.

(** X3. Where no [readdir] fails, the walk closes every directory stream
    it opens, whatever it returns: also when it gives up on an allocation
    failure, and when a directory cannot be opened. *)
Theorem readdir_closes_streams (d : dir) (basePath : string) (pFiles : infiles_t)
    (w : world) (r : bool * infiles_t) (w' : world) :
  dir_reads_ok d = true ->
  utils_readdir d basePath pFiles w = Done r w' ->
  dir_open w' = dir_open w.
Proof. intros Hok H. exact (proj1 walk_closes d Hok _ _ _ _ _ H). Qed.

Lemma readdir_closes_streams_witness :
  dir_open (mkWorld [] [] [] [] [] [] 0
              [mkLog WithErrno l_ERROR "Couldn't allocate memory"]) =
  dir_open (quiet []).
Proof.
  apply (readdir_closes_streams one_file_dir "/img/one" (empty_set "/img/one") (quiet [])
           (false, empty_set "/img/one")).
  - reflexivity.
  - reflexivity.
Defined.

(** ** [utils_init_files] *)

(** X4. For a root that is a directory, a file set that comes in empty and
    memory at hand, [utils_init_files] ends with exactly the paths of the
    walk, in its order, as the first [fileCnt] cells; it succeeds exactly
    when the walk of the root succeeded and found at least one file. *)
Theorem init_directory_collects (fs : filesystem) (input : string) (st : stat_t)
    (pFiles : infiles_t) (w : world) :
  inputFile pFiles = Some input ->
  fileCnt pFiles = 0%nat ->
  fst (fs input) = Some st ->
  S_ISDIR (st_mode st) = true ->
  memory_for (1 + 2 * List.length (walk_paths (snd (fs input)) input)) w ->
  exists pFiles' w',
    utils_init_files fs pFiles w =
      Done (walk_ok (snd (fs input)) &&
            negb (List.length (walk_paths (snd (fs input)) input) =? 0)%nat, pFiles') w' /\
    fileCnt pFiles' = List.length (walk_paths (snd (fs input)) input) /\
    entries pFiles' = map Some (walk_paths (snd (fs input)) input).
Proof.
  intros Hin Hcnt Hst Hdir Hmem.
  unfold utils_init_files. run.
  destruct Hmem as [Hlen Hall].
  destruct (heap w) as [|p h] eqn:Hh; [simpl in Hlen; lia|].
  inversion Hall as [|? ? Hp Hall']. subst.
  simpl. destruct (Z.eqb_spec p NULL) as [E|_]; [contradiction|]. simpl.
  rewrite Hin, Hst, Hdir.
  destruct (proj1 walk_collects (snd (fs input)) input (set_files (p, [None]) pFiles)
              (set_heap h w)) as ([ok pf'] & w' & E & Hok & _ & Hc & _ & He & _).
  - simpl. rewrite Hcnt. lia.
  - split; [simpl in *; lia|exact Hall'].
  - rewrite E. simpl in *. subst ok. rewrite Hcnt in Hc. simpl in Hc.
    unfold entries in He at 2. simpl in He. rewrite Hcnt in He. simpl in He.
    rewrite Hc.
    destruct (walk_ok (snd (fs input))); simpl.
    + destruct (List.length (walk_paths (snd (fs input)) input) =? 0)%nat; simpl;
        do 2 eexists; (split; [reflexivity|]); split; assumption.
    + do 2 eexists. split; [reflexivity|]. split; assumption.
Qed.

Lemma init_directory_collects_witness :
  exists pFiles' w',
    utils_init_files demo_fs (empty_set "/img/three") ample =
      Done (walk_ok (snd (demo_fs "/img/three")) &&
            negb (List.length (walk_paths (snd (demo_fs "/img/three")) "/img/three") =? 0)%nat,
            pFiles') w' /\
    fileCnt pFiles' = List.length (walk_paths (snd (demo_fs "/img/three")) "/img/three") /\
    entries pFiles' = map Some (walk_paths (snd (demo_fs "/img/three")) "/img/three").
Proof.
  apply (init_directory_collects demo_fs "/img/three" (mkStat mode_dir 4096)
           (empty_set "/img/three") ample); try reflexivity.
  split; [vm_compute; lia|]. unfold ample, quiet. simpl.
  repeat constructor; unfold NULL; lia.
Defined.

(** X5. For a root that is a regular file, whatever its size, and a
    successful [malloc], [utils_init_files] returns success with a file
    set of exactly that one path; nothing is logged, no directory is
    opened, and the count that came in does not matter. *)
Theorem init_single_file (fs : filesystem) (input : string) (st : stat_t)
    (pFiles : infiles_t) (w : world) (p : ptr) (h : list ptr) :
  inputFile pFiles = Some input ->
  fst (fs input) = Some st ->
  S_ISREG (st_mode st) = true ->
  heap w = p :: h -> p <> NULL ->
  utils_init_files fs pFiles w =
    Done (true, mkInfiles (Some input) (p, [Some input]) 1) (set_heap h w).
Proof.
  intros Hin Hst Hreg Hh Hp.
  unfold utils_init_files. run. rewrite Hh. simpl.
  destruct (Z.eqb_spec p NULL) as [E|_]; [contradiction|]. simpl.
  rewrite Hin, Hst, (S_ISREG_not_S_ISDIR _ Hreg), Hreg. simpl.
  unfold set_fileCnt, set_files. simpl. rewrite Hin. reflexivity.
Qed.

Lemma init_single_file_witness :
  utils_init_files demo_fs (mkInfiles (Some "/img/empty.img") (NULL, []) 7) (quiet [4096; 4104]) =
    Done (true, mkInfiles (Some "/img/empty.img") (4096, [Some "/img/empty.img"]) 1)
      (set_heap [4104] (quiet [4096; 4104])).
Proof.
  apply (init_single_file demo_fs "/img/empty.img" (mkStat mode_reg 0)
           (mkInfiles (Some "/img/empty.img") (NULL, []) 7) (quiet [4096; 4104]) 4096 [4104]);
    try reflexivity.
  unfold NULL. lia.
Defined.

(** X6. A root that is missing (no input path), that cannot be stat'd, or
    that is neither a directory nor a regular file makes
    [utils_init_files] return failure, and so does a failed [malloc]: one
    error is logged, the count is left as it was, no directory is opened
    and the process goes on. *)
Theorem init_bad_root_fails (fs : filesystem) (pFiles : infiles_t) (w : world) :
  bad_root fs pFiles = true \/ hd NULL (heap w) = NULL ->
  exists pFiles' w' r,
    utils_init_files fs pFiles w = Done (false, pFiles') w' /\
    fileCnt pFiles' = fileCnt pFiles /\
    logs w' = r :: logs w /\ lr_level r = l_ERROR /\
    dir_open w' = dir_open w.
Proof.
  intros H. unfold utils_init_files, bad_root in *. run.
  destruct (heap w) as [|p h]; simpl in *.
  - do 3 eexists. repeat split.
  - destruct (Z.eqb_spec p NULL) as [E|E]; simpl.
    + do 3 eexists. repeat split.
    + destruct H as [H|H]; [|contradiction].
      destruct (inputFile pFiles) as [input|]; simpl.
      * destruct (fst (fs input)) as [st|]; simpl.
        -- apply andb_true_iff in H. destruct H as [Hd Hr].
           apply negb_true_iff in Hd, Hr. rewrite Hd, Hr. simpl.
           do 3 eexists. repeat split.
        -- do 3 eexists. repeat split.
      * do 3 eexists. repeat split.
Qed.

Lemma init_bad_root_fails_witness :
  exists pFiles' w' r,
    utils_init_files demo_fs (empty_set "/img/nowhere") ample = Done (false, pFiles') w' /\
    fileCnt pFiles' = fileCnt (empty_set "/img/nowhere") /\
    logs w' = r :: logs ample /\ lr_level r = l_ERROR /\
    dir_open w' = dir_open ample.
Proof.
  apply (init_bad_root_fails demo_fs (empty_set "/img/nowhere") ample).
  left. reflexivity.
Defined.

(** X7. Whatever the file set held on entry and whatever the allocator
    answers, a successful [utils_init_files] never leaves the file set
    empty: the count is at least 1, and the input path is the one that came
    in. *)
Theorem init_success_not_empty (fs : filesystem) (pFiles pFiles' : infiles_t)
    (w w' : world) :
  utils_init_files fs pFiles w = Done (true, pFiles') w' ->
  (1 <= fileCnt pFiles')%nat /\ inputFile pFiles' = inputFile pFiles.
Proof.
  intros H. unfold utils_init_files in H. run.
  assert (Hwalk : forall d b pf w0 r w1,
            utils_readdir d b pf w0 = Done r w1 -> inputFile (snd r) = inputFile pf).
  { clear.
    apply (dir_mut
             (fun d => forall b pf w0 r w1,
                utils_readdir d b pf w0 = Done r w1 -> inputFile (snd r) = inputFile pf)
             (fun s => forall b pf w0 r w1,
                readdir_loop s b pf w0 = Done r w1 -> inputFile (snd r) = inputFile pf)).
    - intros b pf w0 r w1 H0. simpl in H0. run. injection H0 as <- _. reflexivity.
    - intros s IH b pf w0 r w1 H0. simpl in H0. run. exact (IH _ _ _ _ _ H0).
    - intros b pf w0 r w1 H0. simpl in H0. run. injection H0 as <- _. reflexivity.
    - intros errno rest IH b pf w0 r w1 H0. simpl in H0.
      destruct (errno =? EINTR); [exact (IH _ _ _ _ _ H0)|].
      destruct (errno =? 0); simpl in H0; run; injection H0 as <- _; reflexivity.
    - intros d_name st sub IHsub rest IHrest b pf w0 r w1 H0. simpl in H0.
      destruct (is_dot d_name); [exact (IHrest _ _ _ _ _ H0)|].
      destruct st as [st|]; [|run; exact (IHrest _ _ _ _ _ H0)].
      assert (Hstep : forall pf0 w2 r0 w3,
                file_step (join_path b d_name) st (readdir_loop rest b) pf0 w2 = Done r0 w3 ->
                inputFile (snd r0) = inputFile pf0).
      { intros pf0 w2 r0 w3 Hs. unfold file_step, realloc_files, strdup in Hs.
        destruct (S_ISREG (st_mode st)); simpl in Hs; [|run; exact (IHrest _ _ _ _ _ Hs)].
        destruct (st_size st =? 0); [run; exact (IHrest _ _ _ _ _ Hs)|].
        run.
        destruct (heap w2) as [|p h]; simpl in Hs.
        - injection Hs as <- _. reflexivity.
        - destruct (p =? NULL) eqn:Ep; simpl in Hs; rewrite ?Ep in Hs; simpl in Hs.
          + injection Hs as <- _. reflexivity.
          + destruct h as [|q h]; simpl in Hs.
            * injection Hs as <- _. reflexivity.
            * destruct (q =? NULL); simpl in Hs.
              -- injection Hs as <- _. reflexivity.
              -- apply IHrest in Hs. exact Hs. }
      destruct (S_ISDIR (st_mode st)).
      + unfold bind at 1 in H0.
        destruct (utils_readdir sub (join_path b d_name) pf w0) as [r1 w2|w2] eqn:Es;
          [|discriminate].
        pose proof (IHsub _ _ _ _ _ Es) as Hsub.
        destruct (negb (fst r1)).
        * run. apply IHrest in H0. congruence.
        * apply Hstep in H0. congruence.
      + exact (Hstep _ _ _ _ H0). }
  destruct (heap w) as [|p h]; simpl in H; [discriminate|].
  destruct (p =? NULL); simpl in H; [discriminate|].
  destruct (inputFile pFiles) as [input|] eqn:Hin; simpl in H; [|discriminate].
  destruct (fst (fs input)) as [st|]; simpl in H; [|discriminate].
  destruct (S_ISDIR (st_mode st)).
  - destruct (utils_readdir (snd (fs input)) input (set_files (p, [None]) pFiles)
                (set_heap h w)) as [r w1|w1] eqn:Ew; [|discriminate].
    apply Hwalk in Ew. simpl in Ew, H.
    destruct (negb (fst r)); simpl in H; [discriminate|].
    destruct (fileCnt (snd r)) as [|n] eqn:Ec; simpl in H; [discriminate|].
    injection H as <- _. rewrite Ec. split; [lia|]. congruence.
  - destruct (negb (S_ISREG (st_mode st))); simpl in H; [discriminate|].
    injection H as <- _. simpl. split; [lia|]. first [exact Hin | congruence].
Qed.

Lemma init_success_not_empty_witness :
  Nat.le 1 (fileCnt (mkInfiles (Some "/img/empty.img") (4096, [Some "/img/empty.img"]) 1)) /\
  inputFile (mkInfiles (Some "/img/empty.img") (4096, [Some "/img/empty.img"]) 1) =
  inputFile (empty_set "/img/empty.img").
Proof.
  apply (init_success_not_empty demo_fs (empty_set "/img/empty.img") _ (quiet [4096]) (quiet [])).
  reflexivity.
Defined.

(** ** Paths *)

Lemma substring_0_length (n : nat) (s : string) :
  (String.length (substring 0 n s) <= n)%nat.
Proof.
  revert s. induction n as [|n IH]; intros s.
  - destruct s; simpl; lia.
  - destruct s as [|c s]; simpl; [lia|]. specialize (IH s). lia.
Qed.

Lemma substring_0_all (n : nat) (s : string) :
  (String.length s <= n)%nat -> substring 0 n s = s.
Proof.
  revert s. induction n as [|n IH]; intros s H.
  - destruct s; [reflexivity|simpl in H; lia].
  - destruct s as [|c s]; [reflexivity|]. simpl in H. cbn [substring].
    rewrite IH by lia. reflexivity.
Qed.

Lemma join_path_fits (basePath d_name : string) :
  (String.length (join_path basePath d_name) <= PATH_MAX + 1)%nat /\
  ((String.length basePath + 1 + String.length d_name <= PATH_MAX + 1)%nat ->
   join_path basePath d_name = (basePath ++ "/" ++ d_name)%string).
Proof.
  unfold join_path. split.
  - apply substring_0_length.
  - intros H. apply substring_0_all. rewrite !slength_app. simpl String.length. lia.
Qed.

(** X8. The joined path never exceeds the [PATH_MAX + 1] characters the
    local buffer has room for, and it is a prefix of the directory path,
    one [/], and the entry name: all of it when that fits. *)
Theorem join_path_bounded (basePath d_name : string) :
  (String.length (join_path basePath d_name) <= PATH_MAX + 1)%nat /\
  (exists cut, (basePath ++ "/" ++ d_name)%string = (join_path basePath d_name ++ cut)%string) /\
  ((String.length basePath + 1 + String.length d_name <= PATH_MAX + 1)%nat ->
   join_path basePath d_name = (basePath ++ "/" ++ d_name)%string).
Proof.
  split; [apply join_path_fits|]. split; [|apply join_path_fits].
  unfold join_path. generalize (basePath ++ "/" ++ d_name)%string (PATH_MAX + 1)%nat.
  intros s n. revert s. induction n as [|n IH]; intros s.
  - exists s. destruct s; reflexivity.
  - destruct s as [|c s]; [exists ""; reflexivity|].
    destruct (IH s) as (cut & E). exists cut. cbn [substring]. simpl. rewrite <- E. reflexivity.
Qed.

Lemma walk_paths_bounded :
  (forall d basePath p, In p (walk_paths d basePath) ->
     (String.length p <= PATH_MAX + 1)%nat) /\
  (forall s basePath p, In p (loop_paths s basePath) ->
     (String.length p <= PATH_MAX + 1)%nat).
Proof.
  apply dir_dirstream_ind.
  - intros basePath p H. contradiction.
  - intros s IH basePath p H. exact (IH _ _ H).
  - intros basePath p H. contradiction.
  - intros errno rest IH basePath p H. cbn [loop_paths] in H.
    destruct (errno =? EINTR); [exact (IH _ _ H)|contradiction].
  - intros d_name st sub IHsub rest IHrest basePath p H. cbn [loop_paths] in H.
    destruct (is_dot d_name); [exact (IHrest _ _ H)|].
    destruct st as [st|]; [|exact (IHrest _ _ H)].
    apply in_app_or in H. destruct H as [H|H].
    + destruct (S_ISDIR (st_mode st)); [exact (IHsub _ _ H)|contradiction].
    + apply in_app_or in H. destruct H as [H|H]; [|exact (IHrest _ _ H)].
      destruct (appended st); [|contradiction].
      destruct H as [<-|[]]. apply join_path_fits.
Qed.

(** X9. With memory at hand, every path the walk adds to the file set is
    at most [PATH_MAX + 1] characters long, however deep the tree and
    however long the names. *)
Theorem readdir_paths_fit_buffer (d : dir) (basePath : string) (pFiles : infiles_t)
    (w : world) :
  (fileCnt pFiles <= List.length (snd (files pFiles)))%nat ->
  memory_for (2 * List.length (walk_paths d basePath)) w ->
  exists r w' added,
    utils_readdir d basePath pFiles w = Done r w' /\
    entries (snd r) = (entries pFiles ++ map Some added)%list /\
    Forall (fun p => (String.length p <= PATH_MAX + 1)%nat) added.
Proof.
  intros Hle Hmem.
  destruct (readdir_entries d basePath pFiles w Hle Hmem)
    as (r & w' & E & He).
  exists r, w', (walk_paths d basePath). split; [exact E|]. split; [exact He|].
  apply Forall_forall. intros p Hp. exact (proj1 walk_paths_bounded _ _ _ Hp).
Qed.

Lemma readdir_paths_fit_buffer_witness :
  exists r w' added,
    utils_readdir three_file_dir "/img/three" (empty_set "/img/three") ample = Done r w' /\
    entries (snd r) = (entries (empty_set "/img/three") ++ map Some added)%list /\
    Forall (fun p => (String.length p <= PATH_MAX + 1)%nat) added.
Proof.
  apply (readdir_paths_fit_buffer three_file_dir "/img/three" (empty_set "/img/three") ample).
  - simpl. lia.
  - split; [vm_compute; lia|]. unfold ample, quiet. simpl.
    repeat constructor; unfold NULL; lia.
Defined.

Lemma strrchr_none (c : ascii) (s : string) :
  strrchr s c = None <-> has_char c s = false.
Proof.
  induction s as [|x s IH]; simpl; [tauto|].
  destruct (strrchr s c) as [r|].
  - split; [discriminate|]. intros H. apply orb_false_iff in H.
    destruct H as [_ H]. apply IH in H. discriminate H.
  - destruct (Ascii.eqb x c); simpl.
    + split; discriminate.
    + split; [intros _; apply IH; reflexivity|reflexivity].
Qed.

Lemma strrchr_some (c : ascii) (s r : string) :
  strrchr s c = Some r ->
  exists pre tl, s = (pre ++ String c tl)%string /\ r = String c tl /\ has_char c tl = false.
Proof.
  revert r. induction s as [|x s IH]; intros r H; simpl in H; [discriminate|].
  destruct (strrchr s c) as [r'|] eqn:E.
  - injection H as <-. destruct (IH r' eq_refl) as (pre & tl & -> & -> & Htl).
    exists (String x pre), tl. repeat split; auto.
  - destruct (Ascii.eqb_spec x c) as [->|_]; [|discriminate].
    injection H as <-. exists "", s. repeat split. apply strrchr_none. exact E.
Qed.

Lemma strrchr_last (c : ascii) (pre tl : string) :
  has_char c tl = false -> strrchr (pre ++ String c tl) c = Some (String c tl).
Proof.
  intros H. induction pre as [|x pre IH]; simpl.
  - apply strrchr_none in H. rewrite H, Ascii.eqb_refl. reflexivity.
  - rewrite IH. reflexivity.
Qed.

Lemma has_char_app (c : ascii) (a b : string) :
  has_char c (a ++ b) = has_char c a || has_char c b.
Proof.
  induction a as [|x a IH]; simpl; [reflexivity|]. rewrite IH, orb_assoc. reflexivity.
Qed.

(** X10. [utils_fileBasename] returns a copy of what follows the last [/]
    of the path, or of the whole path where there is none: the result has
    no [/] in it and the path is a prefix ending in [/] (or nothing)
    followed by the result.  It returns NULL exactly when the copy cannot
    be allocated, and never ends the process. *)
Theorem fileBasename_splits (path : string) (w : world) :
  exists c w',
    utils_fileBasename path w = Done c w' /\
    (c = None <-> hd NULL (heap w) = NULL) /\
    (forall b, c = Some b ->
       has_char "/" b = false /\
       exists pre, path = (pre ++ b)%string /\
                   if has_char "/" path then exists pre', pre = (pre' ++ "/")%string
                   else pre = "").
Proof.
  unfold utils_fileBasename, strdup. run.
  assert (Hsplit : forall b,
            b = match strrchr path "/" with Some s => str_tail s | None => path end ->
            has_char "/" b = false /\
            exists pre, path = (pre ++ b)%string /\
                        if has_char "/" path then exists pre', pre = (pre' ++ "/")%string
                        else pre = "").
  { intros b ->. destruct (strrchr path "/") as [s|] eqn:E.
    - destruct (strrchr_some _ _ _ E) as (pre & tl & -> & -> & Htl). simpl.
      split; [exact Htl|]. exists (pre ++ "/")%string. split.
      + rewrite sapp_assoc. reflexivity.
      + rewrite has_char_app. simpl. rewrite orb_true_r. exists pre. reflexivity.
    - apply strrchr_none in E. split; [exact E|]. exists "". split; [reflexivity|].
      rewrite E. reflexivity. }
  destruct (strrchr path "/") as [s|]; run;
    (destruct (heap w) as [|p h]; simpl;
     [ do 2 eexists; split; [reflexivity|]; split; [tauto|]; discriminate
     | destruct (Z.eqb_spec p NULL) as [Ep|Ep];
       do 2 eexists; (split; [reflexivity|]); split;
       [ tauto | discriminate
       | split; [discriminate|intros Hn; contradiction]
       | intros b Hb; injection Hb as <-; apply Hsplit; reflexivity ] ]).
Qed.

(** X11. The base name of a path the walk has joined is the entry name
    again, when the name has no [/] in it, the joined path fits the
    buffer, and the copy can be allocated. *)
Theorem fileBasename_of_join (basePath d_name : string) (w : world) :
  has_char "/" d_name = false ->
  (String.length basePath + 1 + String.length d_name <= PATH_MAX + 1)%nat ->
  hd NULL (heap w) <> NULL ->
  exists w', utils_fileBasename (join_path basePath d_name) w = Done (Some d_name) w'.
Proof.
  intros Hname Hfit Hmem.
  rewrite (proj2 (join_path_fits basePath d_name) Hfit).
  unfold utils_fileBasename.
  change ("/" ++ d_name)%string with (String "/" d_name).
  rewrite (strrchr_last "/" basePath d_name Hname). simpl str_tail.
  unfold strdup. run. destruct (heap w) as [|p h]; simpl in *; [contradiction|].
  destruct (Z.eqb_spec p NULL) as [E|_]; [contradiction|].
  eexists. reflexivity.
Qed.

Lemma fileBasename_of_join_witness :
  exists w', utils_fileBasename (join_path "/img/three" "a.img") ample = Done (Some "a.img") w'.
Proof.
  apply (fileBasename_of_join "/img/three" "a.img" ample).
  - reflexivity.
  - vm_compute. lia.
  - simpl. unfold NULL. lia.
Defined.

(** X12. A path that [utils_isValidDir] accepts (it logs nothing then) is
    never taken as a single file by [utils_init_files]: whatever the file
    set holds afterwards has been found by the walk and is a regular file
    of size greater than 0 below that path. *)
Theorem valid_dir_root_is_walked (fs : filesystem) (path : string) (pFiles : infiles_t)
    (w w1 w2 w3 : world) (r : bool * infiles_t) :
  utils_isValidDir fs path w = Done true w1 ->
  inputFile pFiles = Some path ->
  dir_sizes_ok (snd (fs path)) = true ->
  utils_init_files fs pFiles w2 = Done r w3 ->
  w1 = w /\
  forall p, In (Some p) (snd (files (snd r))) -> In p (dir_files (snd (fs path)) path).
Proof.
  intros Hv Hin Hok Hi. unfold utils_isValidDir in Hv.
  destruct (fst (fs path)) as [st|] eqn:Hst.
  - unfold ret in Hv. injection Hv as Hdir <-. split; [reflexivity|].
    exact (init_directory_cells fs path st pFiles w2 r w3 Hin Hst Hdir Hok Hi).
  - run. discriminate Hv.
Qed.

Lemma valid_dir_root_is_walked_witness :
  ample = ample /\
  In "/img/three/c.img" (dir_files (snd (demo_fs "/img/three")) "/img/three").
Proof.
  destruct (valid_dir_root_is_walked demo_fs "/img/three" (empty_set "/img/three")
              ample ample (quiet [4096; 4104; 4112; NULL; 4120; 4128])
              (mkWorld [] [] [] [] [] [] 0
                 [mkLog Plain l_INFO "2 input files have been added to the list";
                  mkLog Plain l_DEBUG "Added '/img/three/c.img' to the list of input files";
                  mkLog Plain l_ERROR "Failed to process '/img/three/sub' directory";
                  mkLog WithErrno l_ERROR "Couldn't allocate memory";
                  mkLog Plain l_DEBUG "Added '/img/three/a.img' to the list of input files"])
              (true, mkInfiles (Some "/img/three") (4120, [None; Some "/img/three/c.img"]) 2)
              eq_refl eq_refl eq_refl eq_refl) as [Hw Hp].
  split; [exact Hw|]. apply Hp. simpl. right. left. reflexivity.
Defined.

(** ** [utils_writeToFd]: what reaches the descriptors *)

Lemma bytes_to_other (fd fd' : Z) (bytes : list byte) (done : list (Z * list byte)) :
  fd' <> fd -> bytes_to fd' (done ++ [(fd, bytes)]) = bytes_to fd' done.
Proof.
  intros Hne. induction done as [|[f b] tl IH]; simpl.
  - destruct (Z.eqb_spec fd fd') as [E|_]; [congruence|reflexivity].
  - rewrite IH. reflexivity.
Qed.

Lemma writeToFd_loop_prefix (fd : Z) (buf : list byte) (fileSz : Z) (script : list write_res) :
  forall written w, 0 <= written <= fileSz ->
  exists b w' k,
    writeToFd_loop script fd buf fileSz written w = Done b w' /\
    written <= k <= fileSz /\
    (b = true -> k = fileSz) /\ (b = false -> k < fileSz) /\
    bytes_to fd (wr_done w') =
      (bytes_to fd (wr_done w) ++ chunk buf written (k - written))%list /\
    (forall fd', fd' <> fd -> bytes_to fd' (wr_done w') = bytes_to fd' (wr_done w)) /\
    logs w' = logs w /\ fd_open w' = fd_open w /\ heap w' = heap w.
Proof.
  induction script as [|r script IH]; intros written w Hw; simpl.
  - destruct (Z.ltb_spec written fileSz) as [Hlt|Hge].
    + exists true, (transfer fd (chunk buf written (fileSz - written)) w), fileSz.
      split; [reflexivity|]. split; [lia|]. split; [reflexivity|]. split; [discriminate|].
      unfold transfer. simpl. split; [apply bytes_to_transfer|].
      split; [intros fd' Hne; apply bytes_to_other; exact Hne|]. repeat split.
    + exists true, w, written.
      split; [reflexivity|]. split; [lia|]. split; [intros _; lia|]. split; [discriminate|].
      rewrite chunk_nonpos, app_nil_r by lia. repeat split.
  - destruct (Z.ltb_spec written fileSz) as [Hlt|Hge].
    + destruct r as [n|e]; simpl.
      * destruct (Z.ltb_spec (Z.min (Z.of_nat n) (fileSz - written)) 0) as [Hneg|Hpos];
          [lia|]. simpl.
        destruct (IH (written + Z.min (Z.of_nat n) (fileSz - written))
                    (transfer fd (chunk buf written (Z.min (Z.of_nat n) (fileSz - written)))
                       (set_wr_script script w)) ltac:(lia))
          as (b & w' & k & E & Hk & Ht & Hf & Hbytes & Hother & Hl & Hfd & Hh).
        exists b, w', k. split; [exact E|]. split; [lia|]. split; [exact Ht|].
        split; [exact Hf|]. unfold transfer in *. simpl in *.
        split; [|split; [|repeat split; assumption]].
        -- rewrite Hbytes, bytes_to_transfer, <- app_assoc. f_equal.
           rewrite chunk_app by lia. f_equal. lia.
        -- intros fd' Hne. rewrite (Hother fd' Hne). apply bytes_to_other. exact Hne.
      * destruct (Z.eqb_spec e EINTR) as [->|Hne]; simpl.
        -- destruct (IH written (set_wr_script script w) Hw)
             as (b & w' & k & E & Hk & Ht & Hf & Hbytes & Hother & Hl & Hfd & Hh).
           exists b, w', k. repeat split; auto; lia.
        -- exists false, (set_wr_script script w), written.
           split; [reflexivity|]. split; [lia|]. split; [discriminate|].
           split; [intros _; lia|]. simpl.
           rewrite chunk_nonpos, app_nil_r by lia. repeat split.
    + exists true, w, written.
      split; [reflexivity|]. split; [lia|]. split; [intros _; lia|]. split; [discriminate|].
      rewrite chunk_nonpos, app_nil_r by lia. repeat split.
Qed.

(** X13. Whether it succeeds or fails, what [utils_writeToFd] has handed
    to [fd] is a prefix of the buffer, in order and without a byte twice:
    the first [k] bytes, with [k] the whole length on success and less on
    failure.  It writes to no other descriptor, logs nothing and opens or
    closes nothing. *)
Theorem writeToFd_prefix (fd : Z) (buf : list byte) (fileSz : Z) (w : world) :
  0 <= fileSz ->
  exists b w' k,
    utils_writeToFd fd buf fileSz w = Done b w' /\
    0 <= k <= fileSz /\
    (b = true -> k = fileSz) /\ (b = false -> k < fileSz) /\
    bytes_to fd (wr_done w') = (bytes_to fd (wr_done w) ++ firstn (Z.to_nat k) buf)%list /\
    (forall fd', fd' <> fd -> bytes_to fd' (wr_done w') = bytes_to fd' (wr_done w)) /\
    logs w' = logs w /\ fd_open w' = fd_open w.
Proof.
  intros H. unfold utils_writeToFd.
  destruct (writeToFd_loop_prefix fd buf fileSz (wr_script w) 0 w ltac:(lia))
    as (b & w' & k & E & Hk & Ht & Hf & Hbytes & Hother & Hl & Hfd & _).
  exists b, w', k. split; [exact E|]. split; [exact Hk|]. split; [exact Ht|].
  split; [exact Hf|]. split; [|repeat split; assumption].
  rewrite Hbytes. unfold chunk. simpl. rewrite Z.sub_0_r. reflexivity.
Qed.

Lemma writeToFd_prefix_witness :
  exists b w' k,
    utils_writeToFd 1 twenty_bytes 20
      (mkWorld [] [] [WBytes 3; WErr 5] [(2, [x41])] [] [] 0 []) = Done b w' /\
    0 <= k <= 20 /\
    (b = true -> k = 20) /\ (b = false -> k < 20) /\
    bytes_to 1 (wr_done w') =
      (bytes_to 1 [(2, [x41])] ++ firstn (Z.to_nat k) twenty_bytes)%list /\
    (forall fd', fd' <> 1 -> bytes_to fd' (wr_done w') = bytes_to fd' [(2, [x41])]) /\
    logs w' = [] /\ fd_open w' = [].
Proof.
  apply (writeToFd_prefix 1 twenty_bytes 20
           (mkWorld [] [] [WBytes 3; WErr 5] [(2, [x41])] [] [] 0 [])).
  lia.
Defined.

(** ** The allocator: what is zeroed and what is freed *)

(** X14. [utils_calloc] and [utils_crealloc] zero memory only in a block
    the allocator has really handed out: on success [utils_calloc] has
    set exactly [sz] bytes from the returned pointer to 0, and
    [utils_crealloc], asked to keep or grow a block ([old_sz <= new_sz],
    both [size_t] values), exactly the [new_sz - old_sz] bytes that start
    [old_sz] bytes into the returned block; when the allocator fails, the
    process ends before any [memset]. *)
Theorem zeroing_follows_allocation (p : ptr) (sz old_sz new_sz : Z) (w : world) :
  0 <= old_sz <= new_sz ->
  new_sz <= SIZE_MAX ->
  match utils_calloc sz w with
  | Done r w' => r <> NULL /\ heap_ops w' = (heap_ops w ++ [OpMemset r 0 sz])%list
  | Exit w' => heap_ops w' = heap_ops w
  end /\
  match utils_crealloc p old_sz new_sz w with
  | Done r w' =>
      r <> NULL /\
      heap_ops w' = (heap_ops w ++ [OpMemset (r + old_sz) 0 (new_sz - old_sz)])%list
  | Exit w' => heap_ops w' = heap_ops w
  end.
Proof.
  intros Hsz Hmax.
  assert (Hsub : size_sub new_sz old_sz = new_sz - old_sz)
    by (unfold size_sub; apply Z.mod_small; lia).
  unfold utils_calloc, utils_crealloc, utils_malloc, utils_realloc. rewrite Hsub. run.
  destruct (heap w) as [|q h]; simpl.
  - split; reflexivity.
  - destruct (Z.eqb_spec q NULL) as [E|E]; simpl; repeat split; auto.
Qed.

Lemma zeroing_follows_allocation_witness :
  0 <= 4 <= 12 /\ 12 <= SIZE_MAX /\
  match utils_calloc 16 (quiet [8192]) with
  | Done r w' => r <> NULL /\ heap_ops w' = [OpMemset r 0 16]
  | Exit w' => heap_ops w' = []
  end /\
  match utils_crealloc 4096 4 12 (quiet [8192]) with
  | Done r w' => r <> NULL /\ heap_ops w' = [OpMemset (r + 4) 0 (12 - 4)]
  | Exit w' => heap_ops w' = []
  end.
Proof.
  split; [lia|]. split; [vm_compute; discriminate|].
  apply (zeroing_follows_allocation 4096 16 4 12 (quiet [8192])).
  - lia.
  - vm_compute; discriminate.
Defined.

(** A block that shrinks: the count wraps around, and [memset] is asked to
    clear almost the whole address space. *)
Example crealloc_shrinking_block :
  match utils_crealloc 4096 12 4 (quiet [8192]) with
  | Done r w' => heap_ops w' = [OpMemset (8192 + 12) 0 (SIZE_MAX + 1 - 8)]
  | Exit _ => False
  end.
Proof. vm_compute. reflexivity. Qed.

(** X15. Under the fatal policy [utils_realloc] never frees the block it
    was given and [utils_malloc] touches no memory: the [free(ptr)] after
    the fatal log is never reached, and a successful call performs neither
    [free] nor [memset]. *)
Theorem realloc_never_frees (p : ptr) (sz : Z) (w : world) :
  match utils_realloc p sz w with
  | Done _ w' => heap_ops w' = heap_ops w
  | Exit w' => heap_ops w' = heap_ops w
  end /\
  match utils_malloc sz w with
  | Done _ w' => heap_ops w' = heap_ops w
  | Exit w' => heap_ops w' = heap_ops w
  end.
Proof.
  unfold utils_malloc, utils_realloc. run.
  destruct (heap w) as [|q h]; simpl.
  - split; reflexivity.
  - destruct (q =? NULL); simpl; split; reflexivity.
Qed.

(** ** [utils_hexDump]: what the dump depends on *)

(** X16. A dump of [len > 0] bytes shows the first [len] bytes of the
    buffer and nothing else: two buffers that agree on them give the same
    text, and what the local row buffer held on entry never shows. *)
Theorem hexDump_reads_len_bytes (stack stack' : list byte) (desc : option string)
    (addr addr' : list byte) (len : Z) (w : world) :
  0 < len <= Z.of_nat (List.length addr) ->
  len <= Z.of_nat (List.length addr') ->
  firstn (Z.to_nat len) addr = firstn (Z.to_nat len) addr' ->
  List.length stack = 17%nat -> List.length stack' = 17%nat ->
  exists w1 w2,
    utils_hexDump stack desc addr len w = Done tt w1 /\
    utils_hexDump stack' desc addr' len w = Done tt w2 /\
    log_text (logs w1) = log_text (logs w2).
Proof.
  intros Hlen Hlen' Heq Hs Hs'.
  destruct (hexDump_text stack desc addr len w Hlen Hs) as (w1 & E1 & Em1).
  destruct (hexDump_text stack' desc addr' len w ltac:(lia) Hs') as (w2 & E2 & Em2).
  exists w1, w2. split; [exact E1|]. split; [exact E2|].
  unfold emitted in *. rewrite Em1, Em2, Heq. reflexivity.
Qed.

Lemma hexDump_reads_len_bytes_witness :
  exists w1 w2,
    utils_hexDump stack_garbage (Some "boot") twenty_bytes 4 (quiet []) = Done tt w1 /\
    utils_hexDump (repeat x00 17) (Some "boot") [x00; x1f; x20; x41; x42] 4 (quiet []) =
      Done tt w2 /\
    log_text (logs w1) = log_text (logs w2).
Proof.
  apply (hexDump_reads_len_bytes stack_garbage (repeat x00 17) (Some "boot") twenty_bytes
           [x00; x1f; x20; x41; x42] 4 (quiet [])).
  - simpl. lia.
  - simpl. lia.
  - reflexivity.
  - reflexivity.
  - reflexivity.
Defined.

(** ** The invariant of the file set, for directory roots *)

(** X17. For a root that is a directory, whatever the allocator answers
    and whatever the file set held on entry, every path in the file array
    after [utils_init_files] is the joined path of a regular file of size
    greater than 0 that lies below the root: the walk stores nothing
    else. *)
Theorem init_directory_entries_are_files (fs : filesystem) (input : string) (st : stat_t)
    (pFiles : infiles_t) (w : world) (r : bool * infiles_t) (w' : world) :
  inputFile pFiles = Some input ->
  fst (fs input) = Some st ->
  S_ISDIR (st_mode st) = true ->
  dir_sizes_ok (snd (fs input)) = true ->
  utils_init_files fs pFiles w = Done r w' ->
  forall p, In (Some p) (snd (files (snd r))) -> In p (dir_files (snd (fs input)) input).
Proof. apply init_directory_cells. Qed.

Lemma init_directory_entries_are_files_witness :
  In "/img/three/c.img" (dir_files (snd (demo_fs "/img/three")) "/img/three").
Proof.
  apply (init_directory_entries_are_files demo_fs "/img/three" (mkStat mode_dir 4096)
           (empty_set "/img/three") (quiet [4096; 4104; 4112; NULL; 4120; 4128])
           (true, mkInfiles (Some "/img/three") (4120, [None; Some "/img/three/c.img"]) 2)
           (mkWorld [] [] [] [] [] [] 0
              [mkLog Plain l_INFO "2 input files have been added to the list";
               mkLog Plain l_DEBUG "Added '/img/three/c.img' to the list of input files";
               mkLog Plain l_ERROR "Failed to process '/img/three/sub' directory";
               mkLog WithErrno l_ERROR "Couldn't allocate memory";
               mkLog Plain l_DEBUG "Added '/img/three/a.img' to the list of input files"])
           eq_refl eq_refl eq_refl eq_refl eq_refl "/img/three/c.img").
  simpl. right. left. reflexivity.
Defined.

(** ** [utils_mapFileToRead]: what it logs *)

(** X18. [utils_mapFileToRead] logs one warning, and only one, when the
    open, the stat or the mapping fails, and then returns NULL with the
    size out-parameter untouched; when all three succeed it logs nothing.
    In every case the process goes on. *)
Theorem mapFileToRead_logs (k : kernel) (fileName : string) (fileSz fd : Z) (w : world) :
  exists buf sz w',
    utils_mapFileToRead k fileName fileSz fd w = Done (buf, sz, sys_open k fileName) w' /\
    if open_fails k fileName || stat_fails k fileName || mapping_fails k fileName
    then buf = NULL /\ sz = fileSz /\
         exists r, logs w' = r :: logs w /\ lr_level r = l_WARN /\ lr_kind r = WithErrno
    else logs w' = logs w.
Proof.
  unfold utils_mapFileToRead, open, mmap, close, open_fails, stat_fails, mapping_fails. run.
  destruct (Z.eqb_spec (sys_open k fileName) (-1)) as [Eo|Eo]; simpl.
  - do 3 eexists. split; [reflexivity|]. repeat split. eexists. repeat split.
  - destruct (sys_fstat k (sys_open k fileName)) as [st|]; simpl.
    + destruct (Z.eqb_spec (sys_mmap k (st_size st) (sys_open k fileName)) MAP_FAILED)
        as [Em|Em]; simpl.
      * do 3 eexists. split; [reflexivity|]. repeat split. eexists. repeat split.
      * do 3 eexists. split; [reflexivity|]. reflexivity.
    + do 3 eexists. split; [reflexivity|]. repeat split. eexists. repeat split.
Qed.

Lemma join_path_bounded_witness :
  (String.length (join_path "/img/three" "a.img") <= PATH_MAX + 1)%nat /\
  (exists cut, ("/img/three" ++ "/" ++ "a.img")%string =
               (join_path "/img/three" "a.img" ++ cut)%string) /\
  join_path "/img/three" "a.img" = ("/img/three" ++ "/" ++ "a.img")%string.
Proof.
  destruct (join_path_bounded "/img/three" "a.img") as (H1 & H2 & H3).
  split; [exact H1|]. split; [exact H2|]. apply H3. vm_compute. lia.
Defined.

Lemma fileBasename_splits_witness :
  exists c w',
    utils_fileBasename "/img/three/" ample = Done c w' /\
    (c = None <-> hd NULL (heap ample) = NULL) /\
    (forall b, c = Some b ->
       has_char "/" b = false /\
       exists pre, "/img/three/" = (pre ++ b)%string /\
                   if has_char "/" "/img/three/" then exists pre', pre = (pre' ++ "/")%string
                   else pre = "").
Proof. apply (fileBasename_splits "/img/three/" ample). Defined.

(** A path that ends in [/] has the empty base name. *)
Example fileBasename_trailing_slash :
  utils_fileBasename "/img/three/" ample = Done (Some "") (set_heap (tl (heap ample)) ample).
Proof. reflexivity. Qed.
